(** * Alignment arithmetic of align.c, embedded in Rocq

    The C functions [LargestPowerOfTwoFactor], [TailAlignedSize],
    [PaddingSize], [TailOffset], [size_sorter] and [SortSizesDescending]
    are translated to functions over [Z].  A [size_t] of [bits] value bits
    is a [Z] in the range [0 .. SIZE_MAX], and every [+], [-] and [*] of the
    source is followed by its reduction modulo [2 ^ bits]. *)

From Stdlib Require Import Strings.String.
From Stdlib Require Import ZArith Lia List Bool Permutation Sorted Znumtheory.
From Stdlib Require Import Init.Byte Strings.Byte.
Import ListNotations.

Local Open Scope Z_scope.

(** ** The size type *)

Section SizeType.

(** Width of [size_t] in value bits; C99 7.18.3 asks for at least 16. *)
Variable bits : Z.

Definition SIZE_MAX : Z := 2 ^ bits - 1.

(** Unsigned arithmetic of the C abstract machine: results are reduced
    modulo [SIZE_MAX + 1]. *)
Definition wrap (x : Z) : Z := x mod 2 ^ bits.

Definition in_size_t (x : Z) : Prop := 0 <= x <= SIZE_MAX.

(** ** LargestPowerOfTwoFactor *)

(** The controlling expression of the [while]:
    [Number >= npow && !(Number % npow) && SIZE_MAX - npow >= npow]. *)
Definition loop_test (Number npow : Z) : bool :=
  (Number >=? npow) && (Number mod npow =? 0)
  && (wrap (SIZE_MAX - npow) >=? npow).

(** The [while] loop on the pair [(pow, npow)].  Each unit of fuel pays for
    one evaluation of the controlling expression; [None] means that the
    fuel ran out before the loop was left. *)
Fixpoint pow2_loop (fuel : nat) (Number pow npow : Z) : option Z :=
  match fuel with
  | O => None
  | S fuel' =>
      if loop_test Number npow
      then pow2_loop fuel' Number npow (wrap (npow * 2))
      else Some pow
  end.

(** [bits] evaluations of the controlling expression always suffice
    (lemma [pow2_loop_terminates] below). *)
Definition loop_fuel : nat := Z.to_nat bits.

Definition LargestPowerOfTwoFactor (Number : Z) : Z :=
  match pow2_loop loop_fuel Number 1 1 with
  | Some pow => pow
  | None => 0
  end.

(** ** TailAlignedSize, PaddingSize, TailOffset *)

Definition TailAlignedSize (HeadSize TailSize : Z) : Z :=
  if (HeadSize =? 0) || (TailSize =? 0) then 0
  else
    let hpow := LargestPowerOfTwoFactor HeadSize in
    let tpow := LargestPowerOfTwoFactor TailSize in
    let factor := if hpow >? tpow then hpow else tpow in
    if wrap (SIZE_MAX - HeadSize) <? TailSize then 0
    else
      let sum := wrap (HeadSize + TailSize) in
      let remainder := sum mod factor in
      if negb (remainder =? 0)
      then
        let padding := wrap (factor - remainder) in
        if wrap (SIZE_MAX - sum) <? padding then 0
        else wrap (sum + padding)
      else sum.

Definition PaddingSize (HeadSize TailSize : Z) : Z :=
  let total_size := TailAlignedSize HeadSize TailSize in
  if total_size =? 0 then SIZE_MAX
  else wrap (wrap (total_size - TailSize) - HeadSize).

Definition TailOffset (TotalSize TailSize : Z) : Z :=
  wrap (TotalSize - TailSize).

(** The alignment factor the specification speaks of. *)
Definition alignment_factor (HeadSize TailSize : Z) : Z :=
  Z.max (LargestPowerOfTwoFactor HeadSize) (LargestPowerOfTwoFactor TailSize).

(** Padding needed to bring [sum] to the next multiple of [factor]. *)
Definition padding_needed (sum factor : Z) : Z :=
  (factor - sum mod factor) mod factor.

Definition is_pow2 (x : Z) : Prop := exists k, 0 <= k /\ x = 2 ^ k.

End SizeType.

Arguments SIZE_MAX bits : simpl never.
Arguments wrap bits x : simpl never.

(** ** SortSizesDescending *)

(** Memory is a sequence of bytes; a pointer is the null pointer ([None]) or
    the offset of an object in that sequence. *)
Definition memory : Type := list byte.
Definition pointer : Type := option nat.

(** [n] consecutive objects of [size] bytes each, read off a byte
    sequence. *)
Fixpoint chunks (n size : nat) (l : list byte) : list (list byte) :=
  match n with
  | O => []
  | S n' => firstn size l :: chunks n' size (skipn size l)
  end.

(** The array of [nmemb] objects of [size] bytes that starts at [base]. *)
Definition elements (m : memory) (base : nat) (nmemb size : Z)
  : list (list byte) :=
  chunks (Z.to_nat nmemb) (Z.to_nat size) (skipn base m).

(** An object of exactly [size] bytes. *)
Definition sized (size : nat) (c : list byte) : Prop := length c = size.

(** A comparison function receives the bytes of the two objects its
    arguments point to. *)
Definition comparator : Type := list byte -> list byte -> Z.

(** What C99 7.20.5 asks of a comparison function: its results define a
    total ordering. *)
Definition consistent (compar : comparator) : Prop :=
  (forall a b, Z.sgn (compar b a) = - Z.sgn (compar a b))
  /\ (forall a b c, compar a b <= 0 -> compar b c <= 0 -> compar a c <= 0).

(** [a] may stand before [b] in an array that ascends for [compar]. *)
Definition ascending (compar : comparator) (a b : list byte) : Prop :=
  compar a b <= 0.

(** [qsort] belongs to the C library, not to this repository.  Its contract
    (C99 7.20.5.2): the [nmemb] objects of the array are rearranged into
    ascending order according to [compar]; the order of objects that compare
    equal is unspecified; nothing outside the array is written. *)
Definition qsort_contract
    (qsort : memory -> nat -> Z -> Z -> comparator -> memory) : Prop :=
  forall m base nmemb size compar,
    0 < nmemb -> 0 < size ->
    Z.of_nat base + nmemb * size <= Z.of_nat (length m) ->
    consistent compar ->
    exists sorted,
      Permutation (elements m base nmemb size) sorted
      /\ Sorted (ascending compar) sorted
      /\ qsort m base nmemb size compar
         = firstn base m ++ concat sorted
             ++ skipn (base + Z.to_nat (nmemb * size)) m.

Section Sorting.

(** [sizeof (size_t)], and the value of a [size_t] object given its bytes
    (the platform's object representation). *)
Variable sizeof_size_t : Z.
Variable load_size : list byte -> Z.

(** The library's [qsort]. *)
Variable qsort : memory -> nat -> Z -> Z -> comparator -> memory.

(** [*(size_t * ) a]: the [size_t] at offset 0 of the object. *)
Definition key (a : list byte) : Z :=
  load_size (firstn (Z.to_nat sizeof_size_t) a).

Definition size_sorter (a b : list byte) : Z :=
  let sa := key a in
  let sb := key b in
  if sa <? sb then 1
  else if sa >? sb then -1
  else 0.

(** The function returns nothing; its effect is the memory after the
    call. *)
Definition SortSizesDescending
    (m : memory) (Array : pointer) (Count Size : Z) : memory :=
  match Array with
  | None => m
  | Some base =>
      if (Count =? 0) || (Size <? sizeof_size_t) then m
      else qsort m base Count Size size_sorter
  end.

End Sorting.

(** *** One implementation of [qsort], and one object representation *)

Fixpoint insert_by (compar : comparator) (x : list byte)
    (l : list (list byte)) : list (list byte) :=
  match l with
  | [] => [x]
  | y :: l' =>
      if compar x y <=? 0 then x :: l else y :: insert_by compar x l'
  end.

Definition sort_by (compar : comparator) (l : list (list byte))
  : list (list byte) :=
  fold_right (insert_by compar) [] l.

(** Insertion sort over the objects of the array. *)
Definition qsort_insertion
    (m : memory) (base : nat) (nmemb size : Z) (compar : comparator)
  : memory :=
  firstn base m
    ++ concat (sort_by compar (elements m base nmemb size))
    ++ skipn (base + Z.to_nat (nmemb * size)) m.

(** Little-endian object representation. *)
Fixpoint le_decode (l : list byte) : Z :=
  match l with
  | [] => 0
  | b :: l' => Z.of_N (Byte.to_N b) + 256 * le_decode l'
  end.

(** The three records [(2, a)], [(8, b)], [(4, c)] with 8-byte keys and a
    one-byte payload, between two guard bytes. *)
Definition sample_memory : memory :=
  [xff;
   x02; x00; x00; x00; x00; x00; x00; x00; x61;
   x08; x00; x00; x00; x00; x00; x00; x00; x62;
   x04; x00; x00; x00; x00; x00; x00; x00; x63;
   xee]%byte.

(** ** The demonstration program (test.c) *)

(** [struct size_desc]: a size and the name of the type it was taken
    from. *)
Record size_desc : Type := { sz : Z; name : String.string }.

(** One call of [printf], by its format and the values of its arguments. *)
Inductive line : Type :=
| Incrementally
    (* Assuming we build the structure member-wise-incrementally... *)
| FullKnowledge
    (* Assuming we build the structure with full knowledge... *)
| AlignmentRequirement (max : Z)      (* Alignment requirement: %u *)
| PaddingBefore (padding i : Z)       (* %u bytes of padding before %u *)
| PaddingAtEnd (padding : Z)          (* %u bytes of padding at the end *)
| TotalSize (sum : Z).                (* Total size: %u bytes *)

Section Demo.

(** Widths of [size_t] and of [unsigned int]. *)
Variable bits : Z.
Variable uint_bits : Z.

(** The conversion [(unsigned int) x]. *)
Definition to_uint (x : Z) : Z := x mod 2 ^ uint_bits.

(** The body of the [for] of [max_factor], on the running [max]. *)
Definition max_factor_step (max : Z) (d : size_desc) : Z :=
  let factor := LargestPowerOfTwoFactor bits (sz d) in
  if factor >? max then factor else max.

(** The array [sizes] of [count] elements is the list of its elements. *)
Definition max_factor (sizes : list size_desc) : Z :=
  fold_left max_factor_step sizes 0.

(** The [for] of [show_padding1] from index [i] on, over the elements that
    are left: the lines printed and the final [sum]. *)
Fixpoint show_padding1_loop (i sum : Z) (rest : list size_desc)
  : list line * Z :=
  match rest with
  | [] => ([], sum)
  | d :: rest' =>
      let padding := to_uint (PaddingSize bits sum (sz d)) in
      let printed :=
        if negb (padding =? 0) then [PaddingBefore padding (to_uint i)]
        else [] in
      let sum := TailAlignedSize bits sum (sz d) in
      let (lines, total) :=
        show_padding1_loop (wrap bits (i + 1)) sum rest' in
      (printed ++ lines, total)
  end.

(** The lines [show_padding1] prints; [None] when the array is empty, where
    [sizes->sz] reads outside it. *)
Definition show_padding1 (sizes : list size_desc) : option (list line) :=
  match sizes with
  | [] => None
  | first :: rest =>
      let (lines, sum) := show_padding1_loop 1 (sz first) rest in
      Some (Incrementally :: lines ++ [TotalSize (to_uint sum)])
  end.

(** The [for] of [show_padding2]. *)
Fixpoint show_padding2_loop (i sum : Z) (rest : list size_desc)
  : list line * Z :=
  match rest with
  | [] => ([], sum)
  | d :: rest' =>
      let factor := LargestPowerOfTwoFactor bits (sz d) in
      let sum := wrap bits (sum + sz d) in
      let r := sum mod factor in
      if negb (r =? 0) then
        let padding := to_uint (wrap bits (factor - r)) in
        let (lines, total) :=
          show_padding2_loop (wrap bits (i + 1))
            (wrap bits (sum + padding)) rest' in
        (PaddingBefore padding (to_uint i) :: lines, total)
      else show_padding2_loop (wrap bits (i + 1)) sum rest'
  end.

(** The padding appended after the last member, up to the alignment
    requirement [max]: the lines printed and the final [sum]. *)
Definition show_padding2_end (max sum : Z) : list line * Z :=
  let factor := max in
  let r := sum mod factor in
  if negb (r =? 0) then
    let padding := to_uint (wrap bits (factor - r)) in
    ([PaddingAtEnd padding], wrap bits (sum + padding))
  else ([], sum).

Definition show_padding2 (sizes : list size_desc) : option (list line) :=
  match sizes with
  | [] => None
  | first :: rest =>
      let max := max_factor sizes in
      let (lines, sum) := show_padding2_loop 1 (sz first) rest in
      let (last, total) := show_padding2_end max sum in
      Some (FullKnowledge :: AlignmentRequirement (to_uint max)
              :: lines ++ last ++ [TotalSize (to_uint total)])
  end.

End Demo.

(** The sum of the sizes of the members. *)
Definition total_sizes (sizes : list size_desc) : Z :=
  fold_right (fun d acc => sz d + acc) 0 sizes.

(** The padding a list of printed lines reports. *)
Definition reported_padding (lines : list line) : Z :=
  fold_right
    (fun l acc =>
       match l with
       | PaddingBefore padding _ => padding + acc
       | PaddingAtEnd padding => padding + acc
       | _ => acc
       end) 0 lines.

(** The members of [test1] of [main] where [int] has 4 bytes and [double]
    and pointers have 8. *)
Definition test1 : list size_desc :=
  [ {| sz := 2; name := "char[2]"%string |};
    {| sz := 8; name := "double"%string |};
    {| sz := 4; name := "int"%string |};
    {| sz := 8; name := "void *"%string |};
    {| sz := 6; name := "short[3]"%string |} ].

(** [sample_memory] with its three records in descending order of their
    keys. *)
Definition sample_sorted_memory : memory :=
  [xff;
   x08; x00; x00; x00; x00; x00; x00; x00; x62;
   x04; x00; x00; x00; x00; x00; x00; x00; x63;
   x02; x00; x00; x00; x00; x00; x00; x00; x61;
   xee]%byte.

(** An array with a member of size 0. *)
Definition with_empty_member : list size_desc :=
  [ {| sz := 2; name := "char[2]"%string |};
    {| sz := 0; name := "empty"%string |};
    {| sz := 4; name := "int"%string |} ].

(** Closing range and sentinel side conditions at concrete sizes. *)
Ltac size_t_range := unfold in_size_t, SIZE_MAX; lia.
Ltac by_evaluation := vm_compute; discriminate.

(** ** Facts on the size type *)

Section SizeFacts.

Variable bits : Z.
Hypothesis bits_ge_16 : 16 <= bits.

Lemma wrap_small (x : Z) : 0 <= x <= SIZE_MAX bits -> wrap bits x = x.
Proof.
  unfold wrap, SIZE_MAX. intros H. apply Z.mod_small. lia.
Qed.

Lemma pow2_pos (k : Z) : 0 <= k -> 0 < 2 ^ k.
Proof. intros. apply Z.pow_pos_nonneg; lia. Qed.

Lemma pow2_double (k : Z) : 0 <= k -> 2 ^ (k + 1) = 2 ^ k * 2.
Proof. intros. rewrite Z.pow_add_r by lia. reflexivity. Qed.

Lemma pow2_le (j k : Z) : 0 <= j <= k -> 2 ^ j <= 2 ^ k.
Proof. intros. apply Z.pow_le_mono_r; lia. Qed.

Lemma pow2_divide (j k : Z) : 0 <= j <= k -> (2 ^ j | 2 ^ k).
Proof.
  intros H. exists (2 ^ (k - j)).
  rewrite <- Z.pow_add_r by lia. f_equal. lia.
Qed.

(** The overflow guard [SIZE_MAX - npow >= npow] at [npow = 2 ^ k] lets
    the exponents up to [bits - 2] through, and no other. *)
Lemma guard_pow2 (k : Z) :
  0 <= k <= bits - 1 ->
  (wrap bits (SIZE_MAX bits - 2 ^ k) >=? 2 ^ k) = true <-> k <= bits - 2.
Proof using bits_ge_16.
  intros Hk.
  assert (Hle : 2 ^ k <= 2 ^ (bits - 1)) by (apply pow2_le; lia).
  assert (Hb : 2 ^ bits = 2 ^ (bits - 1) * 2).
  { rewrite <- pow2_double by lia. f_equal. lia. }
  pose proof (pow2_pos k ltac:(lia)) as Hpos.
  rewrite wrap_small by (unfold SIZE_MAX; lia).
  unfold SIZE_MAX. rewrite Z.geb_le. split.
  - intros H. destruct (Z.eq_dec k (bits - 1)) as [->|]; lia.
  - intros H.
    assert (2 ^ (k + 1) <= 2 ^ (bits - 1)) by (apply pow2_le; lia).
    rewrite pow2_double in * by lia. lia.
Qed.

Lemma loop_test_true (Number k : Z) :
  0 <= k <= bits - 1 ->
  loop_test bits Number (2 ^ k) = true <->
  2 ^ k <= Number /\ (2 ^ k | Number) /\ k <= bits - 2.
Proof using bits_ge_16.
  intros Hk. unfold loop_test.
  pose proof (pow2_pos k ltac:(lia)) as Hpos.
  rewrite !andb_true_iff, guard_pow2, Z.geb_le, Z.eqb_eq by lia.
  rewrite <- Z.mod_divide by lia. tauto.
Qed.

(** *** The loop, by its exit index *)

(** Started at [npow = 2 ^ k], the loop leaves at the first exponent [e]
    at which the controlling expression is false; it returns the [pow] it
    was given when [e = k], and [2 ^ (e - 1)] otherwise. *)
Lemma pow2_loop_exit (Number : Z) (fuel : nat) :
  forall k pow,
    0 <= k <= bits - 1 ->
    bits - k <= Z.of_nat fuel ->
    exists e,
      k <= e <= bits - 1
      /\ (forall j, k <= j < e -> loop_test bits Number (2 ^ j) = true)
      /\ loop_test bits Number (2 ^ e) = false
      /\ pow2_loop bits fuel Number pow (2 ^ k)
         = Some (if e =? k then pow else 2 ^ (e - 1)).
Proof using bits_ge_16.
  induction fuel as [|fuel IH]; intros k pow Hk Hfuel.
  - simpl in Hfuel. lia.
  - cbn [pow2_loop].
    destruct (loop_test bits Number (2 ^ k)) eqn:Htest.
    + pose proof Htest as Ht.
      apply loop_test_true in Ht; [|lia]. destruct Ht as (_ & _ & Hk2).
      assert (Hnext : wrap bits (2 ^ k * 2) = 2 ^ (k + 1)).
      { rewrite <- pow2_double by lia. apply wrap_small.
        pose proof (pow2_pos (k + 1) ltac:(lia)).
        assert (2 ^ (k + 1) <= 2 ^ (bits - 1)) by (apply pow2_le; lia).
        assert (2 ^ bits = 2 ^ (bits - 1) * 2).
        { rewrite <- pow2_double by lia. f_equal. lia. }
        unfold SIZE_MAX. lia. }
      rewrite Hnext.
      destruct (IH (k + 1) (2 ^ k)) as (e & He & Hbelow & Hstop & Hres);
        [lia | lia |].
      exists e. repeat split; try lia.
      * intros j Hj. destruct (Z.eq_dec j k) as [->|]; [assumption|].
        apply Hbelow. lia.
      * assumption.
      * rewrite Hres. f_equal.
        destruct (Z.eqb_spec e k) as [Hek|_]; [lia|].
        destruct (Z.eqb_spec e (k + 1)) as [Hek|_]; [|reflexivity].
        subst e. f_equal. lia.
    + exists k. repeat split; try lia.
      * assumption.
      * rewrite Z.eqb_refl. reflexivity.
Qed.

(** The loop of [LargestPowerOfTwoFactor] is left within [loop_fuel]
    evaluations of its controlling expression, for every argument. *)
Lemma pow2_loop_terminates (Number : Z) :
  exists pow, pow2_loop bits (loop_fuel bits) Number 1 1 = Some pow.
Proof using bits_ge_16.
  destruct (pow2_loop_exit Number (loop_fuel bits) 0 1)
    as (e & _ & _ & _ & Hres).
  - lia.
  - unfold loop_fuel. lia.
  - rewrite Z.pow_0_r in Hres. eauto.
Qed.

(** More fuel does not change the result. *)
Lemma pow2_loop_fuel_mono (Number : Z) (fuel : nat) :
  forall pow npow r,
    pow2_loop bits fuel Number pow npow = Some r ->
    pow2_loop bits (S fuel) Number pow npow = Some r.
Proof.
  induction fuel as [|fuel IH]; intros pow npow r H.
  - discriminate.
  - cbn [pow2_loop] in H. change (pow2_loop bits (S (S fuel)) Number pow npow)
      with (if loop_test bits Number npow
            then pow2_loop bits (S fuel) Number npow (wrap bits (npow * 2))
            else Some pow).
    destruct (loop_test bits Number npow); [apply IH|]; assumption.
Qed.

(** Whatever the fuel from [loop_fuel] on, the loop returns the value of
    [LargestPowerOfTwoFactor]. *)
Lemma pow2_loop_fuel_enough (Number : Z) (extra : nat) :
  pow2_loop bits (loop_fuel bits + extra) Number 1 1
  = Some (LargestPowerOfTwoFactor bits Number).
Proof using bits_ge_16.
  unfold LargestPowerOfTwoFactor.
  destruct (pow2_loop_terminates Number) as [r Hr]. rewrite Hr.
  induction extra as [|extra IH].
  - rewrite Nat.add_0_r. exact Hr.
  - rewrite Nat.add_succ_r. apply pow2_loop_fuel_mono. exact IH.
Qed.

(** Characterisation of the result by the exit exponent. *)
Lemma LargestPowerOfTwoFactor_exit (Number : Z) :
  exists e,
    0 <= e <= bits - 1
    /\ (forall j, 0 <= j < e -> loop_test bits Number (2 ^ j) = true)
    /\ loop_test bits Number (2 ^ e) = false
    /\ LargestPowerOfTwoFactor bits Number
       = if e =? 0 then 1 else 2 ^ (e - 1).
Proof using bits_ge_16.
  destruct (pow2_loop_exit Number (loop_fuel bits) 0 1)
    as (e & He & Hbelow & Hstop & Hres).
  - lia.
  - unfold loop_fuel. lia.
  - exists e. repeat split; try lia; try assumption.
    unfold LargestPowerOfTwoFactor.
    rewrite Z.pow_0_r in Hres. rewrite Hres. reflexivity.
Qed.

(** *** Shape of the result of [LargestPowerOfTwoFactor] *)

Lemma LargestPowerOfTwoFactor_shape (Number : Z) :
  exists m,
    0 <= m <= bits - 2
    /\ LargestPowerOfTwoFactor bits Number = 2 ^ m
    /\ (2 ^ m | Number)
    /\ (1 <= Number -> 2 ^ m <= Number)
    /\ (1 <= Number -> ~ (2 ^ (m + 1) | Number) \/ m = bits - 2).
Proof using bits_ge_16.
  destruct (LargestPowerOfTwoFactor_exit Number)
    as (e & He & Hbelow & Hstop & Hres).
  destruct (Z.eqb_spec e 0) as [He0|He0].
  - subst e. exists 0. rewrite Z.pow_0_r in *.
    repeat split; try lia; try assumption.
    + apply Z.divide_1_l.
    + intros Hn. exfalso.
      assert (Ht : loop_test bits Number (2 ^ 0) = true).
      { apply loop_test_true; [lia|]. rewrite Z.pow_0_r.
        repeat split; try lia. apply Z.divide_1_l. }
      rewrite Z.pow_0_r in Ht. congruence.
  - exists (e - 1).
    assert (Ht : loop_test bits Number (2 ^ (e - 1)) = true)
      by (apply Hbelow; lia).
    apply loop_test_true in Ht; [|lia].
    destruct Ht as (Hle & Hdiv & Hguard).
    repeat split; try lia; try assumption.
    intros Hn. replace (e - 1 + 1) with e by lia.
    destruct (Z.eq_dec (e - 1) (bits - 2)) as [|Hne]; [right; assumption|].
    left. intros Hd.
    assert (Ht : loop_test bits Number (2 ^ e) = true).
    { apply loop_test_true; [lia|]. repeat split; try lia; try assumption.
      apply Z.divide_pos_le; [lia | assumption]. }
    congruence.
Qed.

Lemma LargestPowerOfTwoFactor_pos (Number : Z) :
  1 <= LargestPowerOfTwoFactor bits Number.
Proof using bits_ge_16.
  destruct (LargestPowerOfTwoFactor_shape Number) as (m & Hm & -> & _).
  pose proof (pow2_pos m ltac:(lia)). lia.
Qed.

Lemma LargestPowerOfTwoFactor_le_quarter (Number : Z) :
  LargestPowerOfTwoFactor bits Number * 4 <= 2 ^ bits.
Proof using bits_ge_16.
  destruct (LargestPowerOfTwoFactor_shape Number) as (m & Hm & -> & _).
  assert (H : 2 ^ m <= 2 ^ (bits - 2)) by (apply pow2_le; lia).
  replace (2 ^ bits) with (2 ^ (bits - 2) * 4); [lia|].
  change 4 with (2 ^ 2). rewrite <- Z.pow_add_r by lia. f_equal. lia.
Qed.

(** The result is determined by divisibility and the cap at
    [2 ^ (bits - 2)]. *)
Lemma LargestPowerOfTwoFactor_unique (Number m : Z) :
  0 <= m <= bits - 2 ->
  1 <= Number ->
  (2 ^ m | Number) ->
  ~ (2 ^ (m + 1) | Number) \/ m = bits - 2 ->
  LargestPowerOfTwoFactor bits Number = 2 ^ m.
Proof using bits_ge_16.
  intros Hm Hn Hdiv Hstop.
  destruct (LargestPowerOfTwoFactor_shape Number)
    as (m' & Hm' & -> & Hdiv' & _ & Hstop').
  specialize (Hstop' Hn).
  f_equal.
  destruct (Z.lt_trichotomy m m') as [Hlt | [Heq | Hgt]]; [|lia|]; exfalso.
  - destruct Hstop as [Hnd | ->]; [|lia].
    apply Hnd. apply Z.divide_trans with (2 ^ m'); [|assumption].
    apply pow2_divide. lia.
  - destruct Hstop' as [Hnd | ->]; [|lia].
    apply Hnd. apply Z.divide_trans with (2 ^ m); [|assumption].
    apply pow2_divide. lia.
Qed.

Lemma not_divide_double_pow2 (k : Z) : 0 <= k -> ~ (2 ^ (k + 1) | 2 ^ k).
Proof.
  intros Hk Hd. pose proof (pow2_pos k Hk).
  apply Z.divide_pos_le in Hd; [|lia].
  rewrite pow2_double in Hd by lia. lia.
Qed.

(** Powers of two up to [2 ^ (bits - 2)] are returned as they are. *)
Lemma LargestPowerOfTwoFactor_pow2_below (k : Z) :
  0 <= k <= bits - 2 ->
  LargestPowerOfTwoFactor bits (2 ^ k) = 2 ^ k.
Proof using bits_ge_16.
  intros Hk. pose proof (pow2_pos k ltac:(lia)).
  apply LargestPowerOfTwoFactor_unique; try lia.
  - apply Z.divide_refl.
  - left. apply not_divide_double_pow2. lia.
Qed.

(** *** TailAlignedSize, without the machine arithmetic *)

Lemma padding_needed_spec (sum factor : Z) :
  0 < factor ->
  0 <= padding_needed sum factor < factor
  /\ (factor | sum + padding_needed sum factor)
  /\ (forall T, (factor | T) -> sum <= T ->
                sum + padding_needed sum factor <= T).
Proof.
  intros Hf. unfold padding_needed.
  pose proof (Z.mod_pos_bound sum factor Hf) as Hr.
  pose proof (Z.div_mod sum factor ltac:(lia)) as Hdm.
  destruct (Z.eq_dec (sum mod factor) 0) as [H0|H0].
  - rewrite H0, Z.sub_0_r, Z.mod_same by lia.
    rewrite Z.add_0_r. repeat split; try lia.
    exists (sum / factor). lia.
  - rewrite (Z.mod_small (factor - sum mod factor)) by lia.
    repeat split; try lia.
    + exists (sum / factor + 1). lia.
    + intros T [q ->] Hle.
      assert (sum / factor < q) by nia. nia.
Qed.

Lemma padding_needed_zero (sum factor : Z) :
  sum mod factor = 0 -> 0 < factor -> padding_needed sum factor = 0.
Proof.
  intros H0 Hf. unfold padding_needed.
  rewrite H0, Z.sub_0_r. apply Z.mod_same. lia.
Qed.

Lemma padding_needed_nonzero (sum factor : Z) :
  sum mod factor <> 0 -> 0 < factor ->
  padding_needed sum factor = factor - sum mod factor.
Proof.
  intros H0 Hf. unfold padding_needed.
  pose proof (Z.mod_pos_bound sum factor Hf).
  apply Z.mod_small. lia.
Qed.

Lemma alignment_factor_bounds (h t : Z) :
  1 <= alignment_factor bits h t /\ alignment_factor bits h t * 4 <= 2 ^ bits.
Proof using bits_ge_16.
  unfold alignment_factor.
  pose proof (LargestPowerOfTwoFactor_pos h).
  pose proof (LargestPowerOfTwoFactor_pos t).
  pose proof (LargestPowerOfTwoFactor_le_quarter h).
  pose proof (LargestPowerOfTwoFactor_le_quarter t).
  lia.
Qed.

(** [TailAlignedSize] over the integers: the sentinel 0 for a zero
    argument or a total beyond [SIZE_MAX], and otherwise the sum brought
    to the next multiple of the alignment factor. *)
Lemma TailAlignedSize_cases (h t : Z) :
  in_size_t bits h -> in_size_t bits t ->
  TailAlignedSize bits h t =
  let total := h + t + padding_needed (h + t) (alignment_factor bits h t) in
  if (h =? 0) || (t =? 0) then 0
  else if SIZE_MAX bits <? total then 0
  else total.
Proof using bits_ge_16.
  unfold in_size_t. intros Hh Ht. cbv zeta. unfold TailAlignedSize.
  destruct ((h =? 0) || (t =? 0)); [reflexivity|].
  assert (Hfac : (if LargestPowerOfTwoFactor bits h
                       >? LargestPowerOfTwoFactor bits t
                  then LargestPowerOfTwoFactor bits h
                  else LargestPowerOfTwoFactor bits t)
                 = alignment_factor bits h t).
  { unfold alignment_factor. rewrite Z.gtb_ltb.
    destruct (Z.ltb_spec (LargestPowerOfTwoFactor bits t)
                         (LargestPowerOfTwoFactor bits h)); lia. }
  rewrite Hfac. clear Hfac.
  destruct (alignment_factor_bounds h t) as [Hf1 Hf4].
  set (f := alignment_factor bits h t) in *.
  destruct (padding_needed_spec (h + t) f ltac:(lia)) as (Hpad & _ & _).
  rewrite (wrap_small (SIZE_MAX bits - h)) by lia.
  destruct (Z.ltb_spec (SIZE_MAX bits - h) t) as [Hov|Hov].
  - destruct (Z.ltb_spec (SIZE_MAX bits)
                (h + t + padding_needed (h + t) f)); [reflexivity | lia].
  - rewrite (wrap_small (h + t)) by lia.
    pose proof (Z.mod_pos_bound (h + t) f ltac:(lia)) as Hr.
    destruct (Z.eqb_spec ((h + t) mod f) 0) as [H0|H0]; cbn [negb].
    + rewrite padding_needed_zero by (assumption || lia).
      rewrite Z.add_0_r.
      destruct (Z.ltb_spec (SIZE_MAX bits) (h + t)); [lia | reflexivity].
    + rewrite padding_needed_nonzero by (assumption || lia).
      assert (Hfm : f <= SIZE_MAX bits) by (unfold SIZE_MAX; lia).
      rewrite (wrap_small (f - (h + t) mod f)) by lia.
      rewrite (wrap_small (SIZE_MAX bits - (h + t))) by lia.
      destruct (Z.ltb_spec (SIZE_MAX bits - (h + t)) (f - (h + t) mod f));
        destruct (Z.ltb_spec (SIZE_MAX bits) (h + t + (f - (h + t) mod f)));
        try lia; try reflexivity.
      apply wrap_small. lia.
Qed.

Lemma alignment_factor_comm (h t : Z) :
  alignment_factor bits h t = alignment_factor bits t h.
Proof. unfold alignment_factor. apply Z.max_comm. Qed.

(** A result other than the sentinel: both arguments are nonzero and the
    padded total fits the size type. *)
Lemma TailAlignedSize_nonzero (h t : Z) :
  in_size_t bits h -> in_size_t bits t ->
  TailAlignedSize bits h t <> 0 ->
  h <> 0 /\ t <> 0
  /\ TailAlignedSize bits h t
     = h + t + padding_needed (h + t) (alignment_factor bits h t)
  /\ TailAlignedSize bits h t <= SIZE_MAX bits.
Proof using bits_ge_16.
  intros Hh Ht. rewrite TailAlignedSize_cases by assumption. cbv zeta.
  destruct (Z.eqb_spec h 0); destruct (Z.eqb_spec t 0); cbn [orb];
    try congruence.
  destruct (Z.ltb_spec (SIZE_MAX bits)
              (h + t + padding_needed (h + t) (alignment_factor bits h t)));
    [congruence|].
  intros _. repeat split; assumption.
Qed.

Lemma PaddingSize_cases (h t : Z) :
  in_size_t bits h -> in_size_t bits t ->
  PaddingSize bits h t =
  if TailAlignedSize bits h t =? 0 then SIZE_MAX bits
  else padding_needed (h + t) (alignment_factor bits h t).
Proof using bits_ge_16.
  intros Hh Ht. unfold PaddingSize.
  destruct (Z.eqb_spec (TailAlignedSize bits h t) 0) as [|Hnz];
    [reflexivity|].
  destruct (TailAlignedSize_nonzero h t Hh Ht Hnz) as (_ & _ & Heq & Hmax).
  destruct (alignment_factor_bounds h t) as [Hf1 Hf4].
  destruct (padding_needed_spec (h + t) (alignment_factor bits h t)
              ltac:(lia)) as (Hpad & _ & _).
  unfold in_size_t in *.
  rewrite (wrap_small (TailAlignedSize bits h t - t)) by lia.
  rewrite wrap_small by lia. lia.
Qed.

(** ** The claims on the arithmetic functions *)

(** C1. For nonzero [HeadSize] and [TailSize] with a nonzero
    [TailAlignedSize HeadSize TailSize], the result is the smallest
    multiple of the alignment factor
    [max (LargestPowerOfTwoFactor HeadSize) (LargestPowerOfTwoFactor TailSize)]
    that is at least [HeadSize + TailSize]: it is divisible by the factor,
    it is at least the sum, and no smaller multiple is. *)
Theorem TailAlignedSize_smallest_multiple (HeadSize TailSize : Z) :
  in_size_t bits HeadSize -> in_size_t bits TailSize ->
  HeadSize <> 0 -> TailSize <> 0 ->
  TailAlignedSize bits HeadSize TailSize <> 0 ->
  let factor := Z.max (LargestPowerOfTwoFactor bits HeadSize)
                      (LargestPowerOfTwoFactor bits TailSize) in
  let T := TailAlignedSize bits HeadSize TailSize in
  T mod factor = 0
  /\ HeadSize + TailSize <= T
  /\ (forall T', T' mod factor = 0 -> HeadSize + TailSize <= T' -> T <= T').
Proof using bits_ge_16.
  intros Hh Ht _ _ Hnz factor T.
  destruct (TailAlignedSize_nonzero _ _ Hh Ht Hnz) as (_ & _ & Heq & _).
  fold (alignment_factor bits HeadSize TailSize) in factor.
  destruct (alignment_factor_bounds HeadSize TailSize) as [Hf1 _].
  fold factor in Heq, Hf1. fold T in Heq.
  destruct (padding_needed_spec (HeadSize + TailSize) factor ltac:(lia))
    as (Hpad & Hdiv & Hmin).
  rewrite Heq. repeat split.
  - apply Z.mod_divide; [lia | assumption].
  - lia.
  - intros T' HT' Hle. apply Hmin; [|assumption].
    apply Z.mod_divide; [lia | assumption].
Qed.

(** C2. [TailAlignedSize HeadSize TailSize] is 0 exactly when [HeadSize]
    is 0, or [TailSize] is 0, or [HeadSize + TailSize] exceeds [SIZE_MAX],
    or the sum with the padding up to the next multiple of the alignment
    factor exceeds [SIZE_MAX]; a result other than 0 is at least
    [HeadSize + TailSize], which is at least 2. *)
Theorem TailAlignedSize_zero_iff (HeadSize TailSize : Z) :
  in_size_t bits HeadSize -> in_size_t bits TailSize ->
  (TailAlignedSize bits HeadSize TailSize = 0 <->
     HeadSize = 0 \/ TailSize = 0
     \/ SIZE_MAX bits < HeadSize + TailSize
     \/ SIZE_MAX bits
        < HeadSize + TailSize
          + padding_needed (HeadSize + TailSize)
              (alignment_factor bits HeadSize TailSize))
  /\ (TailAlignedSize bits HeadSize TailSize <> 0 ->
      2 <= HeadSize + TailSize
         <= TailAlignedSize bits HeadSize TailSize).
Proof using bits_ge_16.
  intros Hh Ht.
  destruct (alignment_factor_bounds HeadSize TailSize) as [Hf1 _].
  destruct (padding_needed_spec (HeadSize + TailSize)
              (alignment_factor bits HeadSize TailSize) ltac:(lia))
    as (Hpad & _ & _).
  split.
  - rewrite TailAlignedSize_cases by assumption. cbv zeta.
    unfold in_size_t in *.
    destruct (Z.eqb_spec HeadSize 0); destruct (Z.eqb_spec TailSize 0);
      cbn [orb]; try (split; [intros _; lia | reflexivity]).
    destruct (Z.ltb_spec (SIZE_MAX bits)
                (HeadSize + TailSize
                 + padding_needed (HeadSize + TailSize)
                     (alignment_factor bits HeadSize TailSize))).
    + split; [intros _; lia | reflexivity].
    + split; [lia | intros [|[|[|]]]; lia].
  - intros Hnz.
    destruct (TailAlignedSize_nonzero _ _ Hh Ht Hnz) as (? & ? & Heq & _).
    unfold in_size_t in *. lia.
Qed.

(** C3, at the input where the code departs from it.  The largest power
    of two of the size type, [2 ^ (bits - 1)], is a power of two in range,
    yet [LargestPowerOfTwoFactor] returns [2 ^ (bits - 2)] for it: the
    overflow guard [SIZE_MAX - npow >= npow] is false at
    [npow = 2 ^ (bits - 1)], so that value is never adopted as [pow]. *)
Theorem LargestPowerOfTwoFactor_largest_pow2 :
  in_size_t bits (2 ^ (bits - 1))
  /\ is_pow2 (2 ^ (bits - 1))
  /\ LargestPowerOfTwoFactor bits (2 ^ (bits - 1)) = 2 ^ (bits - 2)
  /\ LargestPowerOfTwoFactor bits (2 ^ (bits - 1)) <> 2 ^ (bits - 1).
Proof using bits_ge_16.
  pose proof (pow2_pos (bits - 2) ltac:(lia)) as Hpos.
  assert (Hd : 2 ^ (bits - 1) = 2 ^ (bits - 2) * 2).
  { rewrite <- pow2_double by lia. f_equal. lia. }
  assert (Hb : 2 ^ bits = 2 ^ (bits - 1) * 2).
  { rewrite <- pow2_double by lia. f_equal. lia. }
  assert (Hres : LargestPowerOfTwoFactor bits (2 ^ (bits - 1))
                 = 2 ^ (bits - 2)).
  { apply LargestPowerOfTwoFactor_unique;
      [lia | lia | apply pow2_divide; lia | right; reflexivity]. }
  repeat split.
  - lia.
  - unfold SIZE_MAX. lia.
  - exists (bits - 1). split; [lia | reflexivity].
  - assumption.
  - rewrite Hres. lia.
Qed.

(** C4. For every nonzero [Number], [LargestPowerOfTwoFactor Number] is a
    power of two, divides [Number] evenly and is at least 1; it is exactly
    1 when [Number] is odd; and [LargestPowerOfTwoFactor] maps 1 to 1, 8
    to 8, 12 to 4 and 7 to 1. *)
Theorem LargestPowerOfTwoFactor_divides (Number : Z) :
  in_size_t bits Number -> Number <> 0 ->
  is_pow2 (LargestPowerOfTwoFactor bits Number)
  /\ Number mod LargestPowerOfTwoFactor bits Number = 0
  /\ 1 <= LargestPowerOfTwoFactor bits Number
  /\ (Z.odd Number = true -> LargestPowerOfTwoFactor bits Number = 1)
  /\ LargestPowerOfTwoFactor bits 1 = 1
  /\ LargestPowerOfTwoFactor bits 8 = 8
  /\ LargestPowerOfTwoFactor bits 12 = 4
  /\ LargestPowerOfTwoFactor bits 7 = 1.
Proof using bits_ge_16.
  intros Hn Hnz.
  assert (Hinst : forall n m, 0 <= m <= 3 -> 1 <= n ->
                    n mod 2 ^ m = 0 -> n mod 2 ^ (m + 1) <> 0 ->
                    LargestPowerOfTwoFactor bits n = 2 ^ m).
  { intros n m Hm Hn1 Hd Hnd.
    pose proof (pow2_pos m ltac:(lia)).
    pose proof (pow2_pos (m + 1) ltac:(lia)).
    apply LargestPowerOfTwoFactor_unique; try lia.
    - apply Z.mod_divide; [lia | assumption].
    - left. intros Hdiv. apply Hnd. apply Z.mod_divide; [lia | assumption]. }
  destruct (LargestPowerOfTwoFactor_shape Number)
    as (m & Hm & Hres & Hdiv & _).
  pose proof (pow2_pos m ltac:(lia)) as Hpos.
  rewrite Hres. repeat split.
  - exists m. split; [lia | reflexivity].
  - apply Z.mod_divide; [lia | assumption].
  - lia.
  - intros Hodd. destruct (Z.eq_dec m 0) as [->|Hm0]; [reflexivity|].
    exfalso.
    assert (H2 : (2 | Number)).
    { apply Z.divide_trans with (2 ^ m); [|assumption].
      change 2 with (2 ^ 1) at 1. apply pow2_divide. lia. }
    destruct H2 as [q Hq]. rewrite Hq, Z.mul_comm, Z.odd_mul in Hodd.
    discriminate.
  - apply (Hinst 1 0); [lia | lia | reflexivity | discriminate].
  - apply (Hinst 8 3); [lia | lia | reflexivity | discriminate].
  - apply (Hinst 12 2); [lia | lia | reflexivity | discriminate].
  - apply (Hinst 7 0); [lia | lia | reflexivity | discriminate].
Qed.

(** C9. [LargestPowerOfTwoFactor 0] is 1, and the loop is left at the
    first evaluation of its controlling expression on input 0: one unit of
    fuel is enough. *)
Theorem LargestPowerOfTwoFactor_zero :
  LargestPowerOfTwoFactor bits 0 = 1
  /\ (forall fuel, pow2_loop bits (S fuel) 0 1 1 = Some 1).
Proof using bits_ge_16.
  assert (Hloop : forall fuel, pow2_loop bits (S fuel) 0 1 1 = Some 1)
    by reflexivity.
  split; [|assumption].
  unfold LargestPowerOfTwoFactor, loop_fuel.
  replace (Z.to_nat bits) with (S (Z.to_nat (bits - 1))) by lia.
  rewrite Hloop. reflexivity.
Qed.

(** C5. [PaddingSize HeadSize TailSize] is
    [TailAlignedSize HeadSize TailSize - TailSize - HeadSize] when
    [TailAlignedSize HeadSize TailSize] is not 0, and it is [SIZE_MAX]
    exactly when [TailAlignedSize HeadSize TailSize] is 0: the padding of
    a computation that did not fail is below [SIZE_MAX]. *)
Theorem PaddingSize_sentinel (HeadSize TailSize : Z) :
  in_size_t bits HeadSize -> in_size_t bits TailSize ->
  (TailAlignedSize bits HeadSize TailSize <> 0 ->
     PaddingSize bits HeadSize TailSize
     = TailAlignedSize bits HeadSize TailSize - TailSize - HeadSize)
  /\ (PaddingSize bits HeadSize TailSize = SIZE_MAX bits <->
      TailAlignedSize bits HeadSize TailSize = 0)
  /\ (TailAlignedSize bits HeadSize TailSize <> 0 ->
      0 <= PaddingSize bits HeadSize TailSize < SIZE_MAX bits).
Proof using bits_ge_16.
  intros Hh Ht.
  assert (Hnz : TailAlignedSize bits HeadSize TailSize <> 0 ->
                PaddingSize bits HeadSize TailSize
                = TailAlignedSize bits HeadSize TailSize
                  - TailSize - HeadSize
                /\ 0 <= PaddingSize bits HeadSize TailSize
                   < SIZE_MAX bits).
  { intros H. rewrite PaddingSize_cases by assumption.
    destruct (Z.eqb_spec (TailAlignedSize bits HeadSize TailSize) 0);
      [congruence|].
    destruct (TailAlignedSize_nonzero _ _ Hh Ht H) as (? & ? & Heq & Hmax).
    destruct (alignment_factor_bounds HeadSize TailSize) as [Hf1 _].
    destruct (padding_needed_spec (HeadSize + TailSize)
                (alignment_factor bits HeadSize TailSize) ltac:(lia))
      as (Hpad & _ & _).
    unfold in_size_t in *. lia. }
  repeat split.
  - intros H. apply Hnz. assumption.
  - intros Hs.
    destruct (Z.eq_dec (TailAlignedSize bits HeadSize TailSize) 0) as [|H];
      [assumption|].
    apply Hnz in H. lia.
  - intros H0. unfold PaddingSize. rewrite H0. reflexivity.
  - apply Hnz. assumption.
  - apply Hnz. assumption.
Qed.

(** C6. For nonzero [h] and [t] with [TailAlignedSize h t] not 0,
    [TailOffset (TailAlignedSize h t) t] is [TailAlignedSize h t - t], and
    it is at least [h]: no byte of the head region [0 .. h) lies in the
    tail region, which runs from the tail offset to the total. *)
Theorem TailOffset_after_head (h t : Z) :
  in_size_t bits h -> in_size_t bits t ->
  h <> 0 -> t <> 0 ->
  TailAlignedSize bits h t <> 0 ->
  let total := TailAlignedSize bits h t in
  TailOffset bits total t = total - t
  /\ h <= TailOffset bits total t
  /\ (forall i, 0 <= i < h -> ~ (TailOffset bits total t <= i < total)).
Proof using bits_ge_16.
  intros Hh Ht _ _ Hnz total.
  destruct (TailAlignedSize_nonzero _ _ Hh Ht Hnz) as (_ & _ & Heq & Hmax).
  destruct (alignment_factor_bounds h t) as [Hf1 _].
  destruct (padding_needed_spec (h + t) (alignment_factor bits h t)
              ltac:(lia)) as (Hpad & _ & _).
  fold total in Heq, Hmax.
  assert (Hoff : TailOffset bits total t = total - t).
  { unfold TailOffset. apply wrap_small. unfold in_size_t in *. lia. }
  rewrite Hoff. repeat split; lia.
Qed.

(** C10. [TailAlignedSize] does not depend on the order of its arguments,
    and neither does [PaddingSize], failures included. *)
Theorem TailAlignedSize_symmetric (h t : Z) :
  in_size_t bits h -> in_size_t bits t ->
  TailAlignedSize bits h t = TailAlignedSize bits t h
  /\ PaddingSize bits h t = PaddingSize bits t h.
Proof using bits_ge_16.
  intros Hh Ht.
  assert (Hsym : TailAlignedSize bits h t = TailAlignedSize bits t h).
  { rewrite !TailAlignedSize_cases by assumption. cbv zeta.
    rewrite (alignment_factor_comm t h), (Z.add_comm t h), (orb_comm (t =? 0)).
    reflexivity. }
  split; [assumption|].
  rewrite !PaddingSize_cases by assumption.
  rewrite Hsym, (alignment_factor_comm t h), (Z.add_comm t h). reflexivity.
Qed.

End SizeFacts.

(** ** Facts on arrays of fixed-size objects *)

Section Chunks.

Variable size : nat.

Local Abbreviation sized := (sized size).

Lemma chunks_length (n : nat) :
  forall l, length (chunks n size l) = n.
Proof.
  induction n as [|n IH]; intros l; cbn [chunks length];
    [reflexivity | now rewrite IH].
Qed.

Lemma chunks_sized (n : nat) :
  forall l, (n * size <= length l)%nat -> Forall sized (chunks n size l).
Proof.
  induction n as [|n IH]; intros l Hlen; cbn [chunks]; constructor.
  - unfold sized. rewrite length_firstn. lia.
  - apply IH. rewrite length_skipn. lia.
Qed.

Lemma concat_sized_length (cs : list (list byte)) :
  Forall sized cs -> length (concat cs) = (length cs * size)%nat.
Proof.
  induction 1 as [|c cs Hc _ IH]; [reflexivity|].
  cbn [concat length]. rewrite length_app, IH, Hc. lia.
Qed.

(** Reading back the objects that were laid out one after the other. *)
Lemma chunks_concat (cs : list (list byte)) (rest : list byte) :
  Forall sized cs -> chunks (length cs) size (concat cs ++ rest) = cs.
Proof.
  induction 1 as [|c cs Hc _ IH]; [reflexivity|].
  unfold sized in Hc.
  cbn [concat length chunks]. rewrite <- app_assoc.
  rewrite firstn_app, skipn_app, Hc, Nat.sub_diag, firstn_all2,
    skipn_all2 by lia.
  cbn [firstn skipn app]. rewrite app_nil_r. f_equal. exact IH.
Qed.

End Chunks.

(** ** Facts on the insertion sort *)

Section InsertionSort.

Variable compar : comparator.
Hypothesis compar_consistent : consistent compar.

Local Abbreviation le := (ascending compar).

Lemma consistent_total (a b : list byte) :
  compar a b <= 0 \/ compar b a <= 0.
Proof using compar_consistent.
  destruct compar_consistent as [Hanti _].
  specialize (Hanti a b).
  destruct (Z.sgn_spec (compar a b)) as [[? ?]|[[? ?]|[? ?]]];
    destruct (Z.sgn_spec (compar b a)) as [[? ?]|[[? ?]|[? ?]]]; lia.
Qed.

Lemma insert_by_perm (x : list byte) (l : list (list byte)) :
  Permutation (x :: l) (insert_by compar x l).
Proof.
  induction l as [|y l IH]; cbn [insert_by]; [reflexivity|].
  destruct (compar x y <=? 0); [reflexivity|].
  rewrite perm_swap. constructor. exact IH.
Qed.

Lemma sort_by_perm (l : list (list byte)) :
  Permutation l (sort_by compar l).
Proof.
  induction l as [|x l IH]; [reflexivity|].
  cbn [sort_by fold_right]. fold (sort_by compar l).
  rewrite <- insert_by_perm. constructor. exact IH.
Qed.

Lemma insert_by_hdrel (a x : list byte) (l : list (list byte)) :
  le a x -> HdRel le a l -> HdRel le a (insert_by compar x l).
Proof.
  intros Hax Hal. destruct l as [|y l]; cbn [insert_by].
  - constructor. exact Hax.
  - destruct (compar x y <=? 0); constructor;
      [exact Hax | now inversion Hal].
Qed.

Lemma insert_by_sorted (x : list byte) (l : list (list byte)) :
  Sorted le l -> Sorted le (insert_by compar x l).
Proof using compar_consistent.
  induction 1 as [|y l Hs IH Hhd]; cbn [insert_by].
  - repeat constructor.
  - destruct (Z.leb_spec (compar x y) 0) as [Hxy|Hxy].
    + constructor; [constructor; assumption|]. constructor. exact Hxy.
    + constructor; [exact IH|].
      apply insert_by_hdrel; [|exact Hhd].
      unfold ascending. destruct (consistent_total x y); lia.
Qed.

Lemma sort_by_sorted (l : list (list byte)) :
  Sorted le (sort_by compar l).
Proof using compar_consistent.
  induction l as [|x l IH]; [constructor|].
  cbn [sort_by fold_right]. apply insert_by_sorted. exact IH.
Qed.

End InsertionSort.

(** The insertion sort meets the contract of [qsort]. *)
Lemma qsort_insertion_contract : qsort_contract qsort_insertion.
Proof.
  intros m base nmemb size compar _ _ _ Hc.
  exists (sort_by compar (elements m base nmemb size)).
  split; [apply sort_by_perm|].
  split; [apply sort_by_sorted; exact Hc | reflexivity].
Qed.

(** ** The claims on SortSizesDescending *)

Section SortingFacts.

Variable sizeof_size_t : Z.
Variable load_size : list byte -> Z.
Variable qsort : memory -> nat -> Z -> Z -> comparator -> memory.

Hypothesis sizeof_size_t_pos : 0 < sizeof_size_t.
Hypothesis qsort_meets_contract : qsort_contract qsort.

Local Abbreviation keyof := (key sizeof_size_t load_size).
Local Abbreviation sorter := (size_sorter sizeof_size_t load_size).
Local Abbreviation Sort := (SortSizesDescending sizeof_size_t load_size qsort).

(** Ascending for [size_sorter] is descending for the keys. *)
Lemma size_sorter_le (a b : list byte) :
  sorter a b <= 0 <-> keyof b <= keyof a.
Proof.
  unfold size_sorter. cbv zeta. rewrite Z.gtb_ltb.
  destruct (Z.ltb_spec (keyof a) (keyof b)); [lia|].
  destruct (Z.ltb_spec (keyof b) (keyof a)); lia.
Qed.

Lemma size_sorter_consistent : consistent sorter.
Proof.
  split.
  - intros a b. unfold size_sorter. cbv zeta. rewrite !Z.gtb_ltb.
    destruct (Z.ltb_spec (keyof a) (keyof b));
      destruct (Z.ltb_spec (keyof b) (keyof a)); cbn; lia.
  - intros a b c. rewrite !size_sorter_le. lia.
Qed.

(** The comparison reads the keys and nothing else. *)
Lemma size_sorter_key_only (a a' b b' : list byte) :
  keyof a = keyof a' -> keyof b = keyof b' -> sorter a b = sorter a' b'.
Proof.
  intros Ha Hb. unfold size_sorter. cbv zeta.
  rewrite Ha, Hb. reflexivity.
Qed.

Lemma Sorted_weaken (R R' : list byte -> list byte -> Prop)
    (l : list (list byte)) :
  (forall a b, R a b -> R' a b) -> Sorted R l -> Sorted R' l.
Proof.
  intros Himp. induction 1 as [|x l _ IH Hhd]; constructor; [exact IH|].
  destruct Hhd; constructor. apply Himp. assumption.
Qed.

(** The memory after a call that reaches [qsort]: the bytes before and
    after the array are kept, and the array holds a rearrangement of its
    objects that ascends for [size_sorter]. *)
Lemma SortSizesDescending_layout (m : memory) (base : nat) (Count Size : Z) :
  1 <= Count -> sizeof_size_t <= Size ->
  Z.of_nat base + Count * Size <= Z.of_nat (length m) ->
  exists sorted,
    Permutation (elements m base Count Size) sorted
    /\ Sorted (ascending sorter) sorted
    /\ Sort m (Some base) Count Size
       = firstn base m ++ concat sorted
           ++ skipn (base + Z.to_nat (Count * Size)) m
    /\ elements (Sort m (Some base) Count Size)
         base Count Size = sorted
    /\ length (concat sorted) = Z.to_nat (Count * Size).
Proof using sizeof_size_t_pos qsort_meets_contract.
  intros HCount HSize Hfit.
  destruct (qsort_meets_contract m base Count Size sorter)
    as (sorted & Hperm & Hsorted & Hmem);
    [lia | lia | exact Hfit | exact size_sorter_consistent |].
  assert (Hcall : Sort m (Some base) Count Size
                  = qsort m base Count Size sorter).
  { unfold SortSizesDescending.
    destruct (Z.eqb_spec Count 0); [lia|].
    destruct (Z.ltb_spec Size sizeof_size_t); [lia | reflexivity]. }
  rewrite Hcall, Hmem.
  assert (Hmul : Z.to_nat (Count * Size)
                 = (Z.to_nat Count * Z.to_nat Size)%nat)
    by (apply Z2Nat.inj_mul; lia).
  assert (Hroom : (base + Z.to_nat Count * Z.to_nat Size <= length m)%nat)
    by (rewrite <- Hmul; lia).
  assert (Hsized : Forall (sized (Z.to_nat Size)) sorted).
  { apply (Permutation_Forall Hperm). unfold elements.
    apply chunks_sized. rewrite length_skipn. lia. }
  assert (Hlen : length sorted = Z.to_nat Count).
  { rewrite <- (Permutation_length Hperm). apply chunks_length. }
  exists sorted. repeat split; try assumption.
  - unfold elements.
    rewrite skipn_app, length_firstn, skipn_all2
      by (rewrite length_firstn; lia).
    replace (base - Nat.min base (length m))%nat with 0%nat by lia.
    cbn [skipn app]. rewrite <- Hlen. apply chunks_concat. exact Hsized.
  - rewrite (concat_sized_length _ _ Hsized), Hlen, Hmul. reflexivity.
Qed.

(** C7. A call with a non-null array of [Count >= 1] records of [Size]
    bytes, [Size] at least the width of a size value, leaves in the array
    a permutation of the records it held, whole records with their payload
    bytes, whose keys at offset 0 descend; the comparison that decides the
    order reads the keys only; and no byte outside the array changes. *)
Theorem SortSizesDescending_sorts
    (m : memory) (base : nat) (Count Size : Z) :
  1 <= Count -> sizeof_size_t <= Size ->
  Z.of_nat base + Count * Size <= Z.of_nat (length m) ->
  let key := key sizeof_size_t load_size in
  let size_sorter := size_sorter sizeof_size_t load_size in
  let m' :=
    SortSizesDescending sizeof_size_t load_size qsort
      m (Some base) Count Size in
  Permutation (elements m base Count Size) (elements m' base Count Size)
  /\ StronglySorted (fun a b => key b <= key a)
       (elements m' base Count Size)
  /\ (forall a a' b b',
        key a = key a' -> key b = key b' ->
        size_sorter a b = size_sorter a' b')
  /\ length m' = length m
  /\ firstn base m' = firstn base m
  /\ skipn (base + Z.to_nat (Count * Size)) m'
     = skipn (base + Z.to_nat (Count * Size)) m.
Proof using sizeof_size_t_pos qsort_meets_contract.
  intros HCount HSize Hfit k cmp m'. subst k cmp.
  destruct (SortSizesDescending_layout m base Count Size HCount HSize Hfit)
    as (sorted & Hperm & Hsorted & Hmem & Helems & Hbytes).
  fold m' in Hmem, Helems.
  assert (Hroom : (base + Z.to_nat (Count * Size) <= length m)%nat) by nia.
  rewrite Helems. repeat split.
  - exact Hperm.
  - apply Sorted_StronglySorted.
    + intros a b c Hab Hbc. lia.
    + apply Sorted_weaken with (2 := Hsorted).
      intros a b. apply size_sorter_le.
  - apply size_sorter_key_only.
  - rewrite Hmem, !length_app, length_firstn, length_skipn, Hbytes. lia.
  - rewrite Hmem, firstn_app, length_firstn, firstn_firstn.
    replace (base - Nat.min base (length m))%nat with 0%nat by lia.
    rewrite Nat.min_id. cbn [firstn]. apply app_nil_r.
  - rewrite Hmem, skipn_app, length_firstn.
    rewrite (skipn_all2 (firstn base m)) by (rewrite length_firstn; lia).
    replace (base + Z.to_nat (Count * Size) - Nat.min base (length m))%nat
      with (Z.to_nat (Count * Size)) by lia.
    cbn [app]. rewrite skipn_app, Hbytes, Nat.sub_diag, skipn_all2 by lia.
    reflexivity.
Qed.

(** C8. With a null array pointer, or [Count] 0, or [Size] below the
    width of a size value, the call leaves the memory as it was. *)
Theorem SortSizesDescending_noop
    (m : memory) (Array : pointer) (Count Size : Z) :
  Array = None \/ Count = 0 \/ Size < sizeof_size_t ->
  SortSizesDescending sizeof_size_t load_size qsort m Array Count Size = m.
Proof.
  intros Hguard. unfold SortSizesDescending.
  destruct Array as [base|]; [|reflexivity].
  destruct (Z.eqb_spec Count 0); [reflexivity|].
  destruct (Z.ltb_spec Size sizeof_size_t); [reflexivity|].
  destruct Hguard as [|[|]]; [discriminate | lia | lia].
Qed.

End SortingFacts.

(** ** The theorems at concrete inputs

    A 64-bit size type with little-endian objects, the insertion sort for
    [qsort], and the sizes of the worked examples. *)

Lemma TailAlignedSize_smallest_multiple_witness :
  16 <= 64 /\ in_size_t 64 4 /\ in_size_t 64 8 /\ 4 <> 0 /\ 8 <> 0
  /\ TailAlignedSize 64 4 8 <> 0
  /\ (let factor := Z.max (LargestPowerOfTwoFactor 64 4)
                          (LargestPowerOfTwoFactor 64 8) in
      let T := TailAlignedSize 64 4 8 in
      T mod factor = 0
      /\ 4 + 8 <= T
      /\ (forall T', T' mod factor = 0 -> 4 + 8 <= T' -> T <= T')).
Proof.
  assert (Hbits : 16 <= 64) by lia.
  assert (Hh : in_size_t 64 4) by size_t_range.
  assert (Ht : in_size_t 64 8) by size_t_range.
  assert (Hh0 : 4 <> 0) by lia.
  assert (Ht0 : 8 <> 0) by lia.
  assert (Hnz : TailAlignedSize 64 4 8 <> 0) by by_evaluation.
  repeat (split; [assumption|]).
  exact (TailAlignedSize_smallest_multiple 64 Hbits 4 8 Hh Ht Hh0 Ht0 Hnz).
Defined.

Lemma TailAlignedSize_zero_iff_witness :
  16 <= 64 /\ in_size_t 64 (2 ^ 63) /\ in_size_t 64 (2 ^ 63 + 5)
  /\ (TailAlignedSize 64 (2 ^ 63) (2 ^ 63 + 5) = 0 <->
        2 ^ 63 = 0 \/ 2 ^ 63 + 5 = 0
        \/ SIZE_MAX 64 < 2 ^ 63 + (2 ^ 63 + 5)
        \/ SIZE_MAX 64
           < 2 ^ 63 + (2 ^ 63 + 5)
             + padding_needed (2 ^ 63 + (2 ^ 63 + 5))
                 (alignment_factor 64 (2 ^ 63) (2 ^ 63 + 5)))
  /\ (TailAlignedSize 64 (2 ^ 63) (2 ^ 63 + 5) <> 0 ->
      2 <= 2 ^ 63 + (2 ^ 63 + 5)
        <= TailAlignedSize 64 (2 ^ 63) (2 ^ 63 + 5)).
Proof.
  assert (Hbits : 16 <= 64) by lia.
  assert (Hh : in_size_t 64 (2 ^ 63)) by size_t_range.
  assert (Ht : in_size_t 64 (2 ^ 63 + 5)) by size_t_range.
  repeat (split; [assumption|]).
  exact (TailAlignedSize_zero_iff 64 Hbits (2 ^ 63) (2 ^ 63 + 5) Hh Ht).
Defined.

Lemma LargestPowerOfTwoFactor_largest_pow2_witness :
  16 <= 64
  /\ in_size_t 64 (2 ^ (64 - 1))
  /\ is_pow2 (2 ^ (64 - 1))
  /\ LargestPowerOfTwoFactor 64 (2 ^ (64 - 1)) = 2 ^ (64 - 2)
  /\ LargestPowerOfTwoFactor 64 (2 ^ (64 - 1)) <> 2 ^ (64 - 1).
Proof.
  assert (Hbits : 16 <= 64) by lia.
  split; [assumption|].
  exact (LargestPowerOfTwoFactor_largest_pow2 64 Hbits).
Defined.

Lemma LargestPowerOfTwoFactor_divides_witness :
  16 <= 64 /\ in_size_t 64 12 /\ 12 <> 0
  /\ is_pow2 (LargestPowerOfTwoFactor 64 12)
  /\ 12 mod LargestPowerOfTwoFactor 64 12 = 0
  /\ 1 <= LargestPowerOfTwoFactor 64 12
  /\ (Z.odd 12 = true -> LargestPowerOfTwoFactor 64 12 = 1)
  /\ LargestPowerOfTwoFactor 64 1 = 1
  /\ LargestPowerOfTwoFactor 64 8 = 8
  /\ LargestPowerOfTwoFactor 64 12 = 4
  /\ LargestPowerOfTwoFactor 64 7 = 1.
Proof.
  assert (Hbits : 16 <= 64) by lia.
  assert (Hn : in_size_t 64 12) by size_t_range.
  assert (Hnz : 12 <> 0) by lia.
  repeat (split; [assumption|]).
  exact (LargestPowerOfTwoFactor_divides 64 Hbits 12 Hn Hnz).
Defined.

Lemma LargestPowerOfTwoFactor_zero_witness :
  16 <= 64
  /\ LargestPowerOfTwoFactor 64 0 = 1
  /\ (forall fuel, pow2_loop 64 (S fuel) 0 1 1 = Some 1).
Proof.
  assert (Hbits : 16 <= 64) by lia.
  split; [assumption|].
  exact (LargestPowerOfTwoFactor_zero 64 Hbits).
Defined.

Lemma PaddingSize_sentinel_witness :
  16 <= 64 /\ in_size_t 64 4 /\ in_size_t 64 8
  /\ (TailAlignedSize 64 4 8 <> 0 ->
      PaddingSize 64 4 8 = TailAlignedSize 64 4 8 - 8 - 4)
  /\ (PaddingSize 64 4 8 = SIZE_MAX 64 <-> TailAlignedSize 64 4 8 = 0)
  /\ (TailAlignedSize 64 4 8 <> 0 -> 0 <= PaddingSize 64 4 8 < SIZE_MAX 64).
Proof.
  assert (Hbits : 16 <= 64) by lia.
  assert (Hh : in_size_t 64 4) by size_t_range.
  assert (Ht : in_size_t 64 8) by size_t_range.
  repeat (split; [assumption|]).
  exact (PaddingSize_sentinel 64 Hbits 4 8 Hh Ht).
Defined.

Lemma TailOffset_after_head_witness :
  16 <= 64 /\ in_size_t 64 4 /\ in_size_t 64 8 /\ 4 <> 0 /\ 8 <> 0
  /\ TailAlignedSize 64 4 8 <> 0
  /\ (let total := TailAlignedSize 64 4 8 in
      TailOffset 64 total 8 = total - 8
      /\ 4 <= TailOffset 64 total 8
      /\ (forall i, 0 <= i < 4 -> ~ (TailOffset 64 total 8 <= i < total))).
Proof.
  assert (Hbits : 16 <= 64) by lia.
  assert (Hh : in_size_t 64 4) by size_t_range.
  assert (Ht : in_size_t 64 8) by size_t_range.
  assert (Hh0 : 4 <> 0) by lia.
  assert (Ht0 : 8 <> 0) by lia.
  assert (Hnz : TailAlignedSize 64 4 8 <> 0) by by_evaluation.
  repeat (split; [assumption|]).
  exact (TailOffset_after_head 64 Hbits 4 8 Hh Ht Hh0 Ht0 Hnz).
Defined.

Lemma TailAlignedSize_symmetric_witness :
  16 <= 64 /\ in_size_t 64 4 /\ in_size_t 64 24
  /\ TailAlignedSize 64 4 24 = TailAlignedSize 64 24 4
  /\ PaddingSize 64 4 24 = PaddingSize 64 24 4.
Proof.
  assert (Hbits : 16 <= 64) by lia.
  assert (Hh : in_size_t 64 4) by size_t_range.
  assert (Ht : in_size_t 64 24) by size_t_range.
  repeat (split; [assumption|]).
  exact (TailAlignedSize_symmetric 64 Hbits 4 24 Hh Ht).
Defined.

Lemma SortSizesDescending_sorts_witness :
  0 < 8 /\ qsort_contract qsort_insertion
  /\ 1 <= 3 /\ 8 <= 9
  /\ Z.of_nat 1 + 3 * 9 <= Z.of_nat (length sample_memory)
  /\ (let key := key 8 le_decode in
      let size_sorter := size_sorter 8 le_decode in
      let m' :=
        SortSizesDescending 8 le_decode qsort_insertion
          sample_memory (Some 1%nat) 3 9 in
      Permutation (elements sample_memory 1 3 9) (elements m' 1 3 9)
      /\ StronglySorted (fun a b => key b <= key a) (elements m' 1 3 9)
      /\ (forall a a' b b',
            key a = key a' -> key b = key b' ->
            size_sorter a b = size_sorter a' b')
      /\ length m' = length sample_memory
      /\ firstn 1 m' = firstn 1 sample_memory
      /\ skipn (1 + Z.to_nat (3 * 9)) m'
         = skipn (1 + Z.to_nat (3 * 9)) sample_memory).
Proof.
  assert (Hsz : 0 < 8) by lia.
  assert (Hq : qsort_contract qsort_insertion)
    by exact qsort_insertion_contract.
  assert (HCount : 1 <= 3) by lia.
  assert (HSize : 8 <= 9) by lia.
  assert (Hfit : Z.of_nat 1 + 3 * 9 <= Z.of_nat (length sample_memory))
    by (simpl; lia).
  repeat (split; [assumption|]).
  exact (SortSizesDescending_sorts 8 le_decode qsort_insertion Hsz Hq
           sample_memory 1%nat 3 9 HCount HSize Hfit).
Defined.

Lemma SortSizesDescending_noop_witness :
  (Some 1%nat = None \/ 3 = 0 \/ 4 < 8)
  /\ SortSizesDescending 8 le_decode qsort_insertion
       sample_memory (Some 1%nat) 3 4
     = sample_memory.
Proof.
  assert (Hguard : Some 1%nat = None \/ 3 = 0 \/ 4 < 8)
    by (right; right; lia).
  split; [assumption|].
  exact (SortSizesDescending_noop 8 le_decode qsort_insertion
           sample_memory (Some 1%nat) 3 4 Hguard).
Defined.

(** ** Further properties of the arithmetic functions *)

Section MoreSizeFacts.

Variable bits : Z.
Hypothesis bits_ge_16 : 16 <= bits.

(** X1. For a nonzero size, the result of [LargestPowerOfTwoFactor] does not
    exceed the argument, and no power of two up to [2 ^ (bits - 2)] that
    divides the argument is larger than the result. *)
Theorem LargestPowerOfTwoFactor_greatest_divisor (Number : Z) :
  in_size_t bits Number -> Number <> 0 ->
  LargestPowerOfTwoFactor bits Number <= Number
  /\ (forall k, 0 <= k <= bits - 2 -> (2 ^ k | Number) ->
                2 ^ k <= LargestPowerOfTwoFactor bits Number).
Proof using bits_ge_16.
  intros [Hlo _] Hnz.
  destruct (LargestPowerOfTwoFactor_shape bits bits_ge_16 Number)
    as (m & Hm & -> & Hdiv & Hle & Hstop).
  split; [apply Hle; lia|].
  intros k Hk Hdk.
  destruct (Z_le_gt_dec k m) as [Hkm|Hkm]; [apply pow2_le; lia|].
  exfalso. destruct (Hstop ltac:(lia)) as [Hnd|Heq]; [|lia].
  apply Hnd. apply Z.divide_trans with (2 ^ k); [|assumption].
  apply pow2_divide. lia.
Qed.

(** X2. Whatever the argument, the result of [LargestPowerOfTwoFactor] is
    between 1 and [2 ^ (bits - 2)]: doubling it, even twice, stays within
    the size type. *)
Theorem LargestPowerOfTwoFactor_capped (Number : Z) :
  1 <= LargestPowerOfTwoFactor bits Number <= 2 ^ (bits - 2)
  /\ in_size_t bits (LargestPowerOfTwoFactor bits Number * 2)
  /\ LargestPowerOfTwoFactor bits Number * 4 <= SIZE_MAX bits + 1.
Proof using bits_ge_16.
  destruct (LargestPowerOfTwoFactor_shape bits bits_ge_16 Number)
    as (m & Hm & -> & _).
  pose proof (pow2_pos m ltac:(lia)) as Hpos.
  assert (Hle : 2 ^ m <= 2 ^ (bits - 2)) by (apply pow2_le; lia).
  assert (Hb : 2 ^ bits = 2 ^ (bits - 2) * 4).
  { change 4 with (2 ^ 2). rewrite <- Z.pow_add_r by lia. f_equal. lia. }
  unfold in_size_t, SIZE_MAX. lia.
Qed.

(** X3. [LargestPowerOfTwoFactor] is idempotent: applied to one of its own
    results it returns that result. *)
Theorem LargestPowerOfTwoFactor_idempotent (Number : Z) :
  LargestPowerOfTwoFactor bits (LargestPowerOfTwoFactor bits Number)
  = LargestPowerOfTwoFactor bits Number.
Proof using bits_ge_16.
  destruct (LargestPowerOfTwoFactor_shape bits bits_ge_16 Number)
    as (m & Hm & -> & _).
  pose proof (pow2_pos m ltac:(lia)) as Hpos.
  apply LargestPowerOfTwoFactor_unique; try assumption; try lia.
  - apply Z.divide_refl.
  - left. apply not_divide_double_pow2. lia.
Qed.

(** X4. Doubling a nonzero size doubles its factor, except at the cap
    [2 ^ (bits - 2)], where the factor stays. *)
Theorem LargestPowerOfTwoFactor_double (Number : Z) :
  1 <= Number -> Number * 2 <= SIZE_MAX bits ->
  LargestPowerOfTwoFactor bits (Number * 2)
  = if LargestPowerOfTwoFactor bits Number <? 2 ^ (bits - 2)
    then LargestPowerOfTwoFactor bits Number * 2
    else LargestPowerOfTwoFactor bits Number.
Proof using bits_ge_16.
  intros Hn Hfit.
  destruct (LargestPowerOfTwoFactor_shape bits bits_ge_16 Number)
    as (m & Hm & -> & Hdiv & _ & Hstop).
  specialize (Hstop Hn).
  pose proof (pow2_pos m ltac:(lia)) as Hpos.
  destruct (Z.ltb_spec (2 ^ m) (2 ^ (bits - 2))) as [Hlt|Hge].
  - assert (Hm2 : m <> bits - 2) by (intros ->; lia).
    rewrite <- pow2_double by lia.
    apply LargestPowerOfTwoFactor_unique; try assumption; try lia.
    + rewrite pow2_double by lia. apply Z.mul_divide_mono_r. exact Hdiv.
    + left. intros Hd. destruct Hstop as [Hnd|]; [|lia]. apply Hnd.
      rewrite (pow2_double (m + 1)) in Hd by lia.
      apply Z.mul_divide_cancel_r in Hd; [assumption | lia].
  - assert (Hm2 : m = bits - 2).
    { destruct (Z.eq_dec m (bits - 2)) as [|Hne]; [assumption|].
      exfalso. assert (2 ^ (m + 1) <= 2 ^ (bits - 2)) by (apply pow2_le; lia).
      rewrite pow2_double in * by lia. lia. }
    apply LargestPowerOfTwoFactor_unique; try assumption; try lia.
    apply Z.divide_mul_l. exact Hdiv.
Qed.

Lemma alignment_factor_multiple (h t : Z) :
  (LargestPowerOfTwoFactor bits h | alignment_factor bits h t)
  /\ (LargestPowerOfTwoFactor bits t | alignment_factor bits h t).
Proof using bits_ge_16.
  unfold alignment_factor.
  destruct (LargestPowerOfTwoFactor_shape bits bits_ge_16 h)
    as (a & Ha & -> & _).
  destruct (LargestPowerOfTwoFactor_shape bits bits_ge_16 t)
    as (b & Hb & -> & _).
  destruct (Z_le_gt_dec a b) as [Hab|Hab].
  - rewrite Z.max_r by (apply pow2_le; lia).
    split; [apply pow2_divide; lia | apply Z.divide_refl].
  - rewrite Z.max_l by (apply pow2_le; lia).
    split; [apply Z.divide_refl | apply pow2_divide; lia].
Qed.

(** X5. The total that [TailAlignedSize] returns is aligned for both
    objects: when it is not the sentinel, it is a multiple of the factor of
    the head and of the factor of the tail, and so is the offset at which
    [TailOffset] places the tail. *)
Theorem TailOffset_aligned (h t : Z) :
  in_size_t bits h -> in_size_t bits t ->
  TailAlignedSize bits h t <> 0 ->
  let total := TailAlignedSize bits h t in
  total mod LargestPowerOfTwoFactor bits h = 0
  /\ total mod LargestPowerOfTwoFactor bits t = 0
  /\ TailOffset bits total t mod LargestPowerOfTwoFactor bits t = 0.
Proof using bits_ge_16.
  intros Hh Ht Hnz total.
  destruct (TailAlignedSize_nonzero bits bits_ge_16 _ _ Hh Ht Hnz)
    as (_ & _ & Heq & Hmax).
  destruct (alignment_factor_bounds bits bits_ge_16 h t) as [Hf1 _].
  destruct (padding_needed_spec (h + t) (alignment_factor bits h t)
              ltac:(lia)) as (Hpad & Hdiv & _).
  rewrite <- Heq in Hdiv. fold total in Heq, Hmax, Hdiv.
  destruct (alignment_factor_multiple h t) as [Hdh Hdt].
  pose proof (LargestPowerOfTwoFactor_pos bits bits_ge_16 h) as Hph.
  pose proof (LargestPowerOfTwoFactor_pos bits bits_ge_16 t) as Hpt.
  assert (Hoff : TailOffset bits total t = total - t).
  { unfold TailOffset. apply wrap_small. unfold in_size_t in *. lia. }
  assert (Htt : (LargestPowerOfTwoFactor bits t | t)).
  { destruct (LargestPowerOfTwoFactor_shape bits bits_ge_16 t)
      as (b & _ & -> & Hb & _). exact Hb. }
  rewrite Hoff. repeat split; apply Z.mod_divide; try lia.
  - apply Z.divide_trans with (1 := Hdh). exact Hdiv.
  - apply Z.divide_trans with (1 := Hdt). exact Hdiv.
  - apply Z.divide_sub_r; [|exact Htt].
    apply Z.divide_trans with (1 := Hdt). exact Hdiv.
Qed.

(** X6. [TailAlignedSize] stays within the size type, and a total that is
    not the sentinel carries less padding than one alignment factor. *)
Theorem TailAlignedSize_padding_bound (h t : Z) :
  in_size_t bits h -> in_size_t bits t ->
  in_size_t bits (TailAlignedSize bits h t)
  /\ (TailAlignedSize bits h t <> 0 ->
      PaddingSize bits h t < alignment_factor bits h t
      /\ TailAlignedSize bits h t < h + t + alignment_factor bits h t).
Proof using bits_ge_16.
  intros Hh Ht.
  destruct (alignment_factor_bounds bits bits_ge_16 h t) as [Hf1 _].
  destruct (padding_needed_spec (h + t) (alignment_factor bits h t)
              ltac:(lia)) as (Hpad & _ & _).
  destruct (Z.eq_dec (TailAlignedSize bits h t) 0) as [H0|Hnz].
  - rewrite H0. split; [|congruence].
    unfold in_size_t, SIZE_MAX.
    pose proof (pow2_pos bits ltac:(lia)). lia.
  - destruct (TailAlignedSize_nonzero bits bits_ge_16 _ _ Hh Ht Hnz)
      as (Hh0 & Ht0 & Heq & Hmax).
    split.
    + unfold in_size_t in *. lia.
    + intros _. rewrite PaddingSize_cases by assumption.
      destruct (Z.eqb_spec (TailAlignedSize bits h t) 0); lia.
Qed.

(** X7. When the sum of two nonzero sizes fits the size type and is already
    a multiple of the alignment factor, [TailAlignedSize] returns the sum
    itself; and a total that is not the sentinel has padding 0 exactly in
    that case. *)
Theorem TailAlignedSize_no_padding (h t : Z) :
  in_size_t bits h -> in_size_t bits t ->
  (h <> 0 -> t <> 0 -> h + t <= SIZE_MAX bits ->
   (h + t) mod alignment_factor bits h t = 0 ->
   TailAlignedSize bits h t = h + t)
  /\ (TailAlignedSize bits h t <> 0 ->
      (PaddingSize bits h t = 0 <->
       (h + t) mod alignment_factor bits h t = 0)).
Proof using bits_ge_16.
  intros Hh Ht.
  destruct (alignment_factor_bounds bits bits_ge_16 h t) as [Hf1 _].
  split.
  - intros Hh0 Ht0 Hfit Hmod.
    rewrite TailAlignedSize_cases by assumption. cbv zeta.
    rewrite padding_needed_zero by (assumption || lia).
    destruct (Z.eqb_spec h 0); [lia|]. destruct (Z.eqb_spec t 0); [lia|].
    cbn [orb]. rewrite Z.add_0_r.
    destruct (Z.ltb_spec (SIZE_MAX bits) (h + t)); lia.
  - intros Hnz. rewrite PaddingSize_cases by assumption.
    destruct (Z.eqb_spec (TailAlignedSize bits h t) 0); [congruence|].
    pose proof (Z.mod_pos_bound (h + t) (alignment_factor bits h t)
                  ltac:(lia)) as Hr.
    split.
    + intros H0.
      destruct (Z.eq_dec ((h + t) mod alignment_factor bits h t) 0)
        as [|Hne]; [assumption|].
      rewrite padding_needed_nonzero in H0 by (assumption || lia). lia.
    + intros H0. apply padding_needed_zero; [assumption | lia].
Qed.

(** X8. [TailOffset] never leaves the size type.  When [TailSize] exceeds
    [TotalSize] the difference wraps around to
    [TotalSize - TailSize + SIZE_MAX + 1]; in every case adding [TailSize]
    back in the arithmetic of the size type gives [TotalSize] again. *)
Theorem TailOffset_wraps (TotalSize TailSize : Z) :
  in_size_t bits TotalSize -> in_size_t bits TailSize ->
  in_size_t bits (TailOffset bits TotalSize TailSize)
  /\ (TotalSize < TailSize ->
      TailOffset bits TotalSize TailSize
      = TotalSize - TailSize + (SIZE_MAX bits + 1))
  /\ wrap bits (TailOffset bits TotalSize TailSize + TailSize) = TotalSize.
Proof using bits_ge_16.
  unfold in_size_t, TailOffset, wrap, SIZE_MAX. intros HT Ht.
  pose proof (pow2_pos bits ltac:(lia)) as Hpos.
  pose proof (Z.mod_pos_bound (TotalSize - TailSize) (2 ^ bits) Hpos).
  repeat split; try lia.
  - intros Hlt. symmetry. apply (Z.mod_unique _ _ (-1)); lia.
  - rewrite Zplus_mod_idemp_l.
    replace (TotalSize - TailSize + TailSize) with TotalSize by lia.
    apply Z.mod_small. lia.
Qed.

End MoreSizeFacts.

(** ** Further properties of the sort *)

Lemma concat_chunks (size n : nat) :
  forall l, (n * size <= length l)%nat ->
            concat (chunks n size l) = firstn (n * size) l.
Proof.
  induction n as [|n IH]; intros l Hlen; cbn [chunks concat].
  - reflexivity.
  - rewrite IH by (rewrite length_skipn; lia).
    rewrite <- (firstn_skipn size l) at 3.
    rewrite firstn_app, length_firstn, firstn_firstn.
    replace (Nat.min (S n * size) size) with size by lia.
    f_equal. f_equal. lia.
Qed.

(** Cutting the array out of the memory and putting it back. *)
Lemma elements_restore (m : memory) (base : nat) (Count Size : Z) :
  0 <= Count -> 0 <= Size ->
  Z.of_nat base + Count * Size <= Z.of_nat (length m) ->
  firstn base m ++ concat (elements m base Count Size)
    ++ skipn (base + Z.to_nat (Count * Size)) m
  = m.
Proof.
  intros HCount HSize Hfit. unfold elements.
  assert (Hmul : Z.to_nat (Count * Size)
                 = (Z.to_nat Count * Z.to_nat Size)%nat)
    by (apply Z2Nat.inj_mul; lia).
  rewrite concat_chunks by (rewrite length_skipn; lia).
  rewrite <- Hmul, (Nat.add_comm base), <- skipn_skipn.
  rewrite firstn_skipn. apply firstn_skipn.
Qed.

(** Two descending arrangements of the same integers are equal. *)
Lemma descending_unique (l1 : list Z) :
  forall l2,
    Permutation l1 l2 ->
    StronglySorted Z.ge l1 -> StronglySorted Z.ge l2 -> l1 = l2.
Proof.
  induction l1 as [|x l1 IH]; intros l2 Hperm Hs1 Hs2.
  - apply Permutation_nil in Hperm. now subst.
  - destruct l2 as [|y l2];
      [apply Permutation_sym, Permutation_nil in Hperm; discriminate|].
    inversion Hs1 as [|? ? Hs1' Hall1]; subst.
    inversion Hs2 as [|? ? Hs2' Hall2]; subst.
    rewrite Forall_forall in Hall1, Hall2.
    assert (Hxy : x = y).
    { assert (Hx : In x (y :: l2))
        by (apply (Permutation_in _ Hperm); left; reflexivity).
      assert (Hy : In y (x :: l1))
        by (apply (Permutation_in _ (Permutation_sym Hperm));
            left; reflexivity).
      destruct Hx as [|Hx]; [congruence|].
      destruct Hy as [|Hy]; [congruence|].
      specialize (Hall1 _ Hy). specialize (Hall2 _ Hx). lia. }
    subst y. f_equal. apply IH; try assumption.
    apply Permutation_cons_inv with (1 := Hperm).
Qed.

Section MoreSortingFacts.

Variable sizeof_size_t : Z.
Variable load_size : list byte -> Z.
Variable qsort : memory -> nat -> Z -> Z -> comparator -> memory.

Hypothesis sizeof_size_t_pos : 0 < sizeof_size_t.
Hypothesis qsort_meets_contract : qsort_contract qsort.

Local Abbreviation keyof := (key sizeof_size_t load_size).
Local Abbreviation sorter := (size_sorter sizeof_size_t load_size).
Local Abbreviation Sort := (SortSizesDescending sizeof_size_t load_size qsort).

(** X9. [size_sorter] returns the sign of the difference of the keys, second
    minus first, whatever their magnitudes: it is 0 exactly for equal keys,
    and swapping the arguments negates the result. *)
Theorem size_sorter_sign (a b : list byte) :
  size_sorter sizeof_size_t load_size a b
  = Z.sgn (key sizeof_size_t load_size b - key sizeof_size_t load_size a)
  /\ (size_sorter sizeof_size_t load_size a b = 0 <->
      key sizeof_size_t load_size a = key sizeof_size_t load_size b)
  /\ size_sorter sizeof_size_t load_size b a
     = - size_sorter sizeof_size_t load_size a b.
Proof.
  unfold size_sorter. cbv zeta. rewrite !Z.gtb_ltb.
  destruct (Z.ltb_spec (keyof a) (keyof b));
    destruct (Z.ltb_spec (keyof b) (keyof a)); lia.
Qed.

Lemma sorted_keys_descend (l : list (list byte)) :
  Sorted (ascending sorter) l -> StronglySorted Z.ge (map keyof l).
Proof.
  intros Hs.
  assert (Hss : StronglySorted (fun a b => keyof b <= keyof a) l).
  { apply Sorted_StronglySorted; [intros a b c; lia|].
    apply Sorted_weaken with (2 := Hs). intros a b. apply size_sorter_le. }
  clear Hs. induction Hss as [|x l _ IH Hall]; cbn [map]; constructor.
  - exact IH.
  - rewrite Forall_map. apply Forall_impl with (2 := Hall).
    intros b Hb. lia.
Qed.

(** X10. If the keys of the array already descend, the call leaves the
    sequence of keys as it is (records with equal keys may still change
    places). *)
Theorem SortSizesDescending_keeps_descending_keys
    (m : memory) (base : nat) (Count Size : Z) :
  1 <= Count -> sizeof_size_t <= Size ->
  Z.of_nat base + Count * Size <= Z.of_nat (length m) ->
  StronglySorted Z.ge
    (map (key sizeof_size_t load_size) (elements m base Count Size)) ->
  map (key sizeof_size_t load_size)
    (elements (SortSizesDescending sizeof_size_t load_size qsort
                 m (Some base) Count Size) base Count Size)
  = map (key sizeof_size_t load_size) (elements m base Count Size).
Proof using sizeof_size_t_pos qsort_meets_contract.
  intros HCount HSize Hfit Hdesc.
  destruct (SortSizesDescending_layout sizeof_size_t load_size qsort
              sizeof_size_t_pos qsort_meets_contract
              m base Count Size HCount HSize Hfit)
    as (sorted & Hperm & Hsorted & _ & Helems & _).
  rewrite Helems. symmetry. apply descending_unique.
  - apply Permutation_map. exact Hperm.
  - exact Hdesc.
  - apply sorted_keys_descend. exact Hsorted.
Qed.

(** A strictly descending array has one arrangement that ascends for
    [size_sorter]: itself. *)
Lemma strictly_descending_unique (l : list (list byte)) :
  forall l',
    Permutation l l' ->
    StronglySorted (fun a b => keyof b < keyof a) l ->
    Sorted (ascending sorter) l' ->
    l' = l.
Proof.
  induction l as [|x l IH]; intros l' Hperm Hs Hs'.
  - apply Permutation_nil in Hperm. now subst.
  - destruct l' as [|y l'];
      [apply Permutation_sym, Permutation_nil in Hperm; discriminate|].
    inversion Hs as [|? ? Hsl Hall]; subst.
    assert (Hss' : StronglySorted (fun a b => keyof b <= keyof a) (y :: l')).
    { apply Sorted_StronglySorted; [intros a b c; lia|].
      apply Sorted_weaken with (2 := Hs'). intros a b. apply size_sorter_le. }
    inversion Hss' as [|? ? _ Hall']; subst.
    rewrite Forall_forall in Hall, Hall'.
    assert (Hxy : y = x).
    { assert (Hx : In x (y :: l'))
        by (apply (Permutation_in _ Hperm); left; reflexivity).
      assert (Hy : In y (x :: l))
        by (apply (Permutation_in _ (Permutation_sym Hperm));
            left; reflexivity).
      destruct Hx as [|Hx]; [congruence|].
      destruct Hy as [|Hy]; [congruence|].
      specialize (Hall _ Hy). specialize (Hall' _ Hx). lia. }
    subst y. f_equal. apply IH.
    + apply Permutation_cons_inv with (1 := Hperm).
    + exact Hsl.
    + now inversion Hs'.
Qed.

(** X11. If the keys of the array descend strictly, the call leaves the
    whole memory as it is. *)
Theorem SortSizesDescending_strictly_descending_fixed
    (m : memory) (base : nat) (Count Size : Z) :
  1 <= Count -> sizeof_size_t <= Size ->
  Z.of_nat base + Count * Size <= Z.of_nat (length m) ->
  StronglySorted
    (fun a b => key sizeof_size_t load_size b < key sizeof_size_t load_size a)
    (elements m base Count Size) ->
  SortSizesDescending sizeof_size_t load_size qsort m (Some base) Count Size
  = m.
Proof using sizeof_size_t_pos qsort_meets_contract.
  intros HCount HSize Hfit Hdesc.
  destruct (SortSizesDescending_layout sizeof_size_t load_size qsort
              sizeof_size_t_pos qsort_meets_contract
              m base Count Size HCount HSize Hfit)
    as (sorted & Hperm & Hsorted & Hmem & _ & _).
  rewrite Hmem.
  rewrite (strictly_descending_unique _ _ Hperm Hdesc Hsorted).
  apply elements_restore; lia.
Qed.

(** X12. An array of one record is left as it is, and so is the whole
    memory. *)
Theorem SortSizesDescending_single
    (m : memory) (base : nat) (Size : Z) :
  sizeof_size_t <= Size ->
  Z.of_nat base + Size <= Z.of_nat (length m) ->
  SortSizesDescending sizeof_size_t load_size qsort m (Some base) 1 Size = m.
Proof using sizeof_size_t_pos qsort_meets_contract.
  intros HSize Hfit.
  destruct (SortSizesDescending_layout sizeof_size_t load_size qsort
              sizeof_size_t_pos qsort_meets_contract
              m base 1 Size ltac:(lia) HSize ltac:(lia))
    as (sorted & Hperm & _ & Hmem & _ & _).
  rewrite Hmem.
  assert (Hone : sorted = elements m base 1 Size).
  { unfold elements in *. change (Z.to_nat 1) with 1%nat in *.
    cbn [chunks] in *. apply Permutation_length_1_inv in Hperm. exact Hperm. }
  rewrite Hone. apply elements_restore; lia.
Qed.

(** X13. A second call finds the keys as the first call left them: the
    sequence of keys is the same after two calls as after one. *)
Theorem SortSizesDescending_twice_keys
    (m : memory) (base : nat) (Count Size : Z) :
  1 <= Count -> sizeof_size_t <= Size ->
  Z.of_nat base + Count * Size <= Z.of_nat (length m) ->
  let once :=
    SortSizesDescending sizeof_size_t load_size qsort
      m (Some base) Count Size in
  let twice :=
    SortSizesDescending sizeof_size_t load_size qsort
      once (Some base) Count Size in
  map (key sizeof_size_t load_size) (elements twice base Count Size)
  = map (key sizeof_size_t load_size) (elements once base Count Size).
Proof using sizeof_size_t_pos qsort_meets_contract.
  intros HCount HSize Hfit once twice.
  destruct (SortSizesDescending_layout sizeof_size_t load_size qsort
              sizeof_size_t_pos qsort_meets_contract
              m base Count Size HCount HSize Hfit)
    as (sorted & _ & Hsorted & Hmem & Helems & Hbytes).
  fold once in Hmem, Helems.
  assert (Hlen : length once = length m).
  { rewrite Hmem, !length_app, length_firstn, length_skipn, Hbytes. nia. }
  assert (Hfit' : Z.of_nat base + Count * Size <= Z.of_nat (length once))
    by (rewrite Hlen; exact Hfit).
  destruct (SortSizesDescending_layout sizeof_size_t load_size qsort
              sizeof_size_t_pos qsort_meets_contract
              once base Count Size HCount HSize Hfit')
    as (sorted' & Hperm' & Hsorted' & _ & Helems' & _).
  fold twice in Helems'. rewrite Helems', Helems. symmetry.
  apply descending_unique.
  - apply Permutation_map. rewrite <- Helems. exact Hperm'.
  - apply sorted_keys_descend. exact Hsorted.
  - apply sorted_keys_descend. exact Hsorted'.
Qed.

End MoreSortingFacts.

(** ** Properties of the demonstration program *)

Section DemoFacts.

Variable bits : Z.
Variable uint_bits : Z.
Hypothesis bits_ge_16 : 16 <= bits.
Hypothesis uint_bits_ge_16 : 16 <= uint_bits.

Local Abbreviation LPF := (LargestPowerOfTwoFactor bits).

Lemma max_factor_step_max (max : Z) (d : size_desc) :
  max_factor_step bits max d = Z.max max (LPF (sz d)).
Proof.
  unfold max_factor_step. cbv zeta. rewrite Z.gtb_ltb.
  destruct (Z.ltb_spec max (LPF (sz d))); lia.
Qed.

(** The loop of [max_factor] from a running maximum [acc]. *)
Lemma max_factor_fold (sizes : list size_desc) :
  forall acc,
    let r := fold_left (max_factor_step bits) sizes acc in
    acc <= r
    /\ (forall d, In d sizes -> LPF (sz d) <= r)
    /\ (r = acc \/ exists d, In d sizes /\ r = LPF (sz d)).
Proof.
  induction sizes as [|d sizes IH]; intros acc; cbn [fold_left].
  - cbv zeta. repeat split; [lia | intros d [] | left; reflexivity].
  - pose proof (max_factor_step_max acc d) as Hstep.
    specialize (IH (max_factor_step bits acc d)). cbv zeta in *.
    set (r := fold_left (max_factor_step bits) sizes
                (max_factor_step bits acc d)) in *.
    destruct IH as (Hacc & Hall & Hsome).
    repeat split.
    + lia.
    + intros d' [<-|Hin]; [lia | apply Hall; exact Hin].
    + destruct Hsome as [Heq | (d' & Hin & Heq)].
      * destruct (Z.max_spec acc (LPF (sz d))) as [[_ Hm]|[_ Hm]].
        -- right. exists d. split; [left; reflexivity | lia].
        -- left. lia.
      * right. exists d'. split; [right; exact Hin | exact Heq].
Qed.

Lemma LargestPowerOfTwoFactor_le_divide (x y : Z) :
  LPF x <= LPF y -> (LPF x | LPF y).
Proof using bits_ge_16.
  destruct (LargestPowerOfTwoFactor_shape bits bits_ge_16 x)
    as (a & Ha & -> & _).
  destruct (LargestPowerOfTwoFactor_shape bits bits_ge_16 y)
    as (b & Hb & -> & _).
  intros Hle. apply pow2_divide.
  split; [lia|]. apply (Z.pow_le_mono_r_iff 2); lia.
Qed.

(** X14. For a non-empty array, [max_factor] returns the factor of one of
    the members; the factor of every member is at most that value and
    divides it. *)
Theorem max_factor_greatest (sizes : list size_desc) :
  sizes <> [] ->
  (exists d, In d sizes
             /\ max_factor bits sizes
                = LargestPowerOfTwoFactor bits (sz d))
  /\ (forall d, In d sizes ->
        LargestPowerOfTwoFactor bits (sz d) <= max_factor bits sizes
        /\ max_factor bits sizes mod LargestPowerOfTwoFactor bits (sz d)
           = 0).
Proof using bits_ge_16.
  intros Hne. unfold max_factor.
  destruct (max_factor_fold sizes 0) as (_ & Hall & Hsome).
  cbv zeta in *.
  assert (Hex : exists d, In d sizes
                  /\ fold_left (max_factor_step bits) sizes 0 = LPF (sz d)).
  { destruct Hsome as [H0 | Hex]; [|exact Hex].
    exfalso. destruct sizes as [|d sizes]; [congruence|].
    specialize (Hall d (or_introl eq_refl)).
    pose proof (LargestPowerOfTwoFactor_pos bits bits_ge_16 (sz d)). lia. }
  split; [exact Hex|].
  intros d Hin. split; [apply Hall; exact Hin|].
  destruct Hex as (d' & _ & Heq).
  pose proof (Hall d Hin) as Hle. rewrite Heq in *.
  pose proof (LargestPowerOfTwoFactor_pos bits bits_ge_16 (sz d)).
  apply Z.mod_divide; [lia|].
  apply LargestPowerOfTwoFactor_le_divide. exact Hle.
Qed.

Lemma max_factor_fold_perm (l l' : list size_desc) :
  Permutation l l' ->
  forall acc,
    fold_left (max_factor_step bits) l acc
    = fold_left (max_factor_step bits) l' acc.
Proof.
  induction 1 as [|x l l' _ IH|x y l|l l' l'' _ IH1 _ IH2]; intros acc;
    cbn [fold_left].
  - reflexivity.
  - apply IH.
  - f_equal. rewrite !max_factor_step_max. lia.
  - rewrite IH1. apply IH2.
Qed.

(** X15. [max_factor] does not depend on the order of the members: the
    alignment requirement is the same before and after sorting. *)
Theorem max_factor_permutation (sizes sizes' : list size_desc) :
  Permutation sizes sizes' ->
  max_factor bits sizes = max_factor bits sizes'.
Proof.
  intros Hperm. unfold max_factor. apply max_factor_fold_perm. exact Hperm.
Qed.

(** *** show_padding1 *)

Lemma to_uint_small (x : Z) :
  0 <= x < 2 ^ uint_bits -> to_uint uint_bits x = x.
Proof. intros H. unfold to_uint. apply Z.mod_small. exact H. Qed.

Lemma to_uint_nonneg (x : Z) : 0 <= to_uint uint_bits x.
Proof using uint_bits_ge_16.
  unfold to_uint.
  pose proof (Z.mod_pos_bound x (2 ^ uint_bits)
                (pow2_pos uint_bits ltac:(lia))).
  lia.
Qed.

Lemma reported_padding_app (l1 l2 : list line) :
  reported_padding (l1 ++ l2) = reported_padding l1 + reported_padding l2.
Proof.
  induction l1 as [|l l1 IH]; [reflexivity|].
  cbn [app reported_padding fold_right] in *.
  fold (reported_padding (l1 ++ l2)). fold (reported_padding l1).
  rewrite IH. destruct l; lia.
Qed.

Lemma TailAlignedSize_zero_l (t : Z) : TailAlignedSize bits 0 t = 0.
Proof. reflexivity. Qed.

Lemma TailAlignedSize_zero_r (h : Z) : TailAlignedSize bits h 0 = 0.
Proof.
  unfold TailAlignedSize. rewrite orb_true_r. reflexivity.
Qed.

Lemma TailAlignedSize_in_size_t (h t : Z) :
  in_size_t bits h -> in_size_t bits t ->
  in_size_t bits (TailAlignedSize bits h t).
Proof using bits_ge_16.
  intros Hh Ht.
  destruct (Z.eq_dec (TailAlignedSize bits h t) 0) as [H0|Hnz].
  - rewrite H0. unfold in_size_t, SIZE_MAX.
    pose proof (pow2_pos bits ltac:(lia)). lia.
  - destruct (TailAlignedSize_nonzero bits bits_ge_16 _ _ Hh Ht Hnz)
      as (_ & _ & Heq & Hmax).
    destruct (alignment_factor_bounds bits bits_ge_16 h t) as [Hf1 _].
    destruct (padding_needed_spec (h + t) (alignment_factor bits h t)
                ltac:(lia)) as (Hpad & _ & _).
    unfold in_size_t in *. lia.
Qed.

(** Once the running sum is 0 it stays 0. *)
Lemma show_padding1_loop_zero (rest : list size_desc) :
  forall i, snd (show_padding1_loop bits uint_bits i 0 rest) = 0.
Proof.
  induction rest as [|d rest IH]; intros i; cbn [show_padding1_loop];
    [reflexivity|].
  rewrite TailAlignedSize_zero_l.
  specialize (IH (wrap bits (i + 1))).
  destruct (show_padding1_loop bits uint_bits (wrap bits (i + 1)) 0 rest).
  exact IH.
Qed.

Lemma show_padding1_loop_zero_member (rest : list size_desc) :
  forall i sum d,
    In d rest -> sz d = 0 ->
    snd (show_padding1_loop bits uint_bits i sum rest) = 0.
Proof.
  induction rest as [|d' rest IH]; intros i sum d Hin Hz; [destruct Hin|].
  cbn [show_padding1_loop].
  destruct Hin as [->|Hin].
  - rewrite Hz, TailAlignedSize_zero_r.
    pose proof (show_padding1_loop_zero rest (wrap bits (i + 1))) as H0.
    destruct (show_padding1_loop bits uint_bits (wrap bits (i + 1)) 0 rest).
    exact H0.
  - specialize (IH (wrap bits (i + 1))
                  (TailAlignedSize bits sum (sz d')) d Hin Hz).
    destruct (show_padding1_loop bits uint_bits (wrap bits (i + 1))
                (TailAlignedSize bits sum (sz d')) rest).
    exact IH.
Qed.

(** X16. A member of size 0 anywhere in the array makes [show_padding1]
    report a total of 0: [TailAlignedSize] answers such a member with its
    sentinel, and from then on the running sum is 0. *)
Theorem show_padding1_zero_member (sizes : list size_desc) (d : size_desc) :
  In d sizes -> sz d = 0 ->
  exists lines,
    show_padding1 bits uint_bits sizes
    = Some (Incrementally :: lines ++ [TotalSize 0]).
Proof.
  intros Hin Hz. destruct sizes as [|first rest]; [destruct Hin|].
  unfold show_padding1.
  assert (H0 : snd (show_padding1_loop bits uint_bits 1 (sz first) rest) = 0).
  { destruct Hin as [->|Hin].
    - rewrite Hz. apply show_padding1_loop_zero.
    - apply show_padding1_loop_zero_member with (1 := Hin) (2 := Hz). }
  destruct (show_padding1_loop bits uint_bits 1 (sz first) rest)
    as [lines sum].
  cbn [snd] in H0. subst sum. exists lines. reflexivity.
Qed.

Lemma show_padding1_loop_sum (rest : list size_desc) :
  forall i sum lines total,
    in_size_t bits sum ->
    Forall (fun d => in_size_t bits (sz d)) rest ->
    show_padding1_loop bits uint_bits i sum rest = (lines, total) ->
    total <> 0 ->
    sum <= total
    /\ 0 <= reported_padding lines
    /\ (total < 2 ^ uint_bits ->
        total = sum + total_sizes rest + reported_padding lines).
Proof using bits_ge_16 uint_bits_ge_16.
  induction rest as [|d rest IH]; intros i sum lines total Hsum Hall Hrun Hnz.
  - cbn in Hrun. injection Hrun as <- <-. cbn. lia.
  - cbn [show_padding1_loop] in Hrun.
    inversion Hall as [|? ? Hd Hrest]; subst.
    pose proof (TailAlignedSize_in_size_t _ _ Hsum Hd) as Hnext.
    destruct (show_padding1_loop bits uint_bits (wrap bits (i + 1))
                (TailAlignedSize bits sum (sz d)) rest)
      as [lines' total'] eqn:Hrec.
    injection Hrun as <- <-.
    destruct (IH _ _ _ _ Hnext Hrest Hrec Hnz) as (Hle & Hpos & Hacc).
    assert (Hstep : TailAlignedSize bits sum (sz d) <> 0).
    { intros H0. rewrite H0 in Hrec.
      pose proof (show_padding1_loop_zero rest (wrap bits (i + 1))) as Hz.
      rewrite Hrec in Hz. cbn [snd] in Hz. congruence. }
    destruct (TailAlignedSize_nonzero bits bits_ge_16 _ _ Hsum Hd Hstep)
      as (_ & _ & Heq & _).
    destruct (alignment_factor_bounds bits bits_ge_16 sum (sz d))
      as [Hf1 _].
    destruct (padding_needed_spec (sum + sz d)
                (alignment_factor bits sum (sz d)) ltac:(lia))
      as (Hpad & _ & _).
    rewrite PaddingSize_cases by assumption.
    destruct (Z.eqb_spec (TailAlignedSize bits sum (sz d)) 0);
      [congruence|].
    set (pad := padding_needed (sum + sz d)
                  (alignment_factor bits sum (sz d))) in *.
    unfold in_size_t in *.
    rewrite reported_padding_app.
    assert (Hprinted :
              0 <= reported_padding
                     (if negb (to_uint uint_bits pad =? 0)
                      then [PaddingBefore (to_uint uint_bits pad)
                              (to_uint uint_bits i)]
                      else [])
              /\ (total' < 2 ^ uint_bits ->
                  reported_padding
                    (if negb (to_uint uint_bits pad =? 0)
                     then [PaddingBefore (to_uint uint_bits pad)
                             (to_uint uint_bits i)]
                     else []) = pad)).
    { pose proof (to_uint_nonneg pad).
      split.
      - destruct (Z.eqb_spec (to_uint uint_bits pad) 0); cbn; lia.
      - intros Hfit. rewrite (to_uint_small pad) by lia.
        destruct (Z.eqb_spec pad 0); cbn; lia. }
    destruct Hprinted as [Hp0 Hpeq].
    repeat split; try lia.
    intros Hfit. specialize (Hacc Hfit). specialize (Hpeq Hfit).
    cbn [total_sizes fold_right]. fold (total_sizes rest). lia.
Qed.

(** X17. When the total [show_padding1] arrives at is not 0 and fits an
    [unsigned int], the report adds up: the total printed is the sum of the
    members' sizes plus the paddings printed, and so it is at least the sum
    of the sizes. *)
Theorem show_padding1_accounts
    (first : size_desc) (rest : list size_desc)
    (lines : list line) (sum : Z) :
  Forall (fun d => in_size_t bits (sz d)) (first :: rest) ->
  show_padding1_loop bits uint_bits 1 (sz first) rest = (lines, sum) ->
  sum <> 0 -> sum < 2 ^ uint_bits ->
  show_padding1 bits uint_bits (first :: rest)
  = Some (Incrementally :: lines ++ [TotalSize sum])
  /\ sum = total_sizes (first :: rest) + reported_padding lines
  /\ total_sizes (first :: rest) <= sum.
Proof using bits_ge_16 uint_bits_ge_16.
  intros Hall Hrun Hnz Hfit.
  inversion Hall as [|? ? Hfirst Hrest]; subst.
  destruct (show_padding1_loop_sum rest 1 (sz first) lines sum
              Hfirst Hrest Hrun Hnz) as (Hle & Hpos & Hacc).
  specialize (Hacc Hfit).
  cbn [total_sizes fold_right]. fold (total_sizes rest).
  repeat split; try lia.
  unfold show_padding1. rewrite Hrun.
  rewrite to_uint_small; [reflexivity|].
  unfold in_size_t in Hfirst. lia.
Qed.

(** *** show_padding2 *)

(** What fits both [size_t] and [unsigned int]. *)
Local Abbreviation limit := (Z.min (SIZE_MAX bits) (2 ^ uint_bits - 1)).

Lemma LargestPowerOfTwoFactor_at_zero : LPF 0 = 1.
Proof using bits_ge_16.
  unfold LargestPowerOfTwoFactor, loop_fuel.
  replace (Z.to_nat bits) with (S (Z.to_nat (bits - 1))) by lia.
  reflexivity.
Qed.

(** The padding up to the factor of a member is never more than the
    member. *)
Lemma padding_needed_le_size (sum s : Z) :
  0 <= s -> 0 <= padding_needed sum (LPF s) <= s.
Proof using bits_ge_16.
  intros Hs.
  pose proof (LargestPowerOfTwoFactor_pos bits bits_ge_16 s) as Hf.
  destruct (padding_needed_spec sum (LPF s) ltac:(lia)) as (Hpad & _ & _).
  destruct (Z.eq_dec s 0) as [->|Hnz].
  - rewrite LargestPowerOfTwoFactor_at_zero in *. lia.
  - destruct (LargestPowerOfTwoFactor_shape bits bits_ge_16 s)
      as (m & _ & Heq & _ & Hle & _).
    rewrite Heq in *. specialize (Hle ltac:(lia)). lia.
Qed.

(** The padding code shared by the loop and the end of [show_padding2]:
    [sum % factor], and [factor - r] through an [unsigned int]. *)
Lemma padding_code (sum factor : Z) :
  0 <= sum -> 1 <= factor -> sum + factor <= limit ->
  let r := sum mod factor in
  let pad := padding_needed sum factor in
  (r =? 0) = (pad =? 0)
  /\ (r <> 0 -> to_uint uint_bits (wrap bits (factor - r)) = pad)
  /\ wrap bits (sum + pad) = sum + pad.
Proof using bits_ge_16 uint_bits_ge_16.
  intros Hsum Hf Hfit. cbv zeta.
  pose proof (Z.mod_pos_bound sum factor ltac:(lia)) as Hr.
  destruct (padding_needed_spec sum factor ltac:(lia)) as (Hpad & _ & _).
  destruct (Z.eq_dec (sum mod factor) 0) as [H0|Hnz].
  - rewrite H0, padding_needed_zero by (assumption || lia).
    repeat split; [congruence|]. apply wrap_small. lia.
  - rewrite padding_needed_nonzero by (assumption || lia).
    repeat split.
    + destruct (Z.eqb_spec (sum mod factor) 0);
        destruct (Z.eqb_spec (factor - sum mod factor) 0);
        try reflexivity; lia.
    + intros _. rewrite (wrap_small bits (factor - sum mod factor)) by lia.
      apply to_uint_small. lia.
    + apply wrap_small. lia.
Qed.

Lemma show_padding2_step (i sum : Z) (d : size_desc) (rest : list size_desc) :
  0 <= sum -> 0 <= sz d -> sum + 2 * sz d <= limit ->
  let pad := padding_needed (sum + sz d) (LPF (sz d)) in
  show_padding2_loop bits uint_bits i sum (d :: rest)
  = (let (lines, total) :=
       show_padding2_loop bits uint_bits (wrap bits (i + 1))
         (sum + sz d + pad) rest in
     ((if negb (pad =? 0)
       then [PaddingBefore pad (to_uint uint_bits i)] else []) ++ lines,
      total)).
Proof using bits_ge_16 uint_bits_ge_16.
  intros Hsum Hd Hfit pad. cbn [show_padding2_loop].
  pose proof (padding_needed_le_size (sum + sz d) (sz d) Hd) as Hpad.
  fold pad in Hpad.
  pose proof (LargestPowerOfTwoFactor_pos bits bits_ge_16 (sz d)) as Hf.
  rewrite (wrap_small bits (sum + sz d)) by lia.
  destruct (Z.eq_dec ((sum + sz d) mod LPF (sz d)) 0) as [H0|Hnz].
  - assert (Hp0 : pad = 0)
      by (apply padding_needed_zero; [assumption | lia]).
    rewrite H0, Hp0, Z.add_0_r. cbn [Z.eqb negb app].
    destruct (show_padding2_loop bits uint_bits (wrap bits (i + 1))
                (sum + sz d) rest). reflexivity.
  - assert (Hd1 : 1 <= sz d).
    { destruct (Z.eq_dec (sz d) 0) as [Hz|]; [|lia]. exfalso.
      rewrite Hz, LargestPowerOfTwoFactor_at_zero, Z.mod_1_r in Hnz.
      congruence. }
    assert (HfS : LPF (sz d) <= sz d).
    { destruct (LargestPowerOfTwoFactor_shape bits bits_ge_16 (sz d))
        as (m & _ & Heq & _ & Hle & _).
      rewrite Heq. apply Hle. lia. }
    destruct (padding_code (sum + sz d) (LPF (sz d)))
      as (Htest & Hval & Hwrap); [lia | lia | lia |].
    fold pad in Htest, Hval, Hwrap.
    rewrite Htest, (Hval Hnz), Hwrap.
    destruct (Z.eqb_spec pad 0) as [Hp0|_].
    + exfalso. destruct (Z.eqb_spec ((sum + sz d) mod LPF (sz d)) 0);
        [congruence | discriminate].
    + cbn [negb app].
      destruct (show_padding2_loop bits uint_bits (wrap bits (i + 1))
                  (sum + sz d + pad) rest). reflexivity.
Qed.

Lemma show_padding2_loop_sum (rest : list size_desc) :
  forall i sum lines total,
    0 <= sum ->
    Forall (fun d => 0 <= sz d) rest ->
    sum + 2 * total_sizes rest <= limit ->
    show_padding2_loop bits uint_bits i sum rest = (lines, total) ->
    sum + total_sizes rest <= total <= sum + 2 * total_sizes rest
    /\ total = sum + total_sizes rest + reported_padding lines.
Proof using bits_ge_16 uint_bits_ge_16.
  induction rest as [|d rest IH]; intros i sum lines total Hsum Hall Hfit Hrun.
  - cbn in Hrun. injection Hrun as <- <-. cbn. lia.
  - inversion Hall as [|? ? Hd Hrest]; subst.
    cbn [total_sizes fold_right] in *. fold (total_sizes rest) in *.
    assert (Htot : 0 <= total_sizes rest).
    { clear -Hrest. induction Hrest as [|x l Hx _ IHl]; cbn; [lia|].
      fold (total_sizes l). lia. }
    pose proof (padding_needed_le_size (sum + sz d) (sz d) Hd) as Hpad.
    rewrite show_padding2_step in Hrun by lia.
    set (pad := padding_needed (sum + sz d) (LPF (sz d))) in *.
    destruct (show_padding2_loop bits uint_bits (wrap bits (i + 1))
                (sum + sz d + pad) rest) as [lines' total'] eqn:Hrec.
    injection Hrun as <- <-.
    destruct (IH (wrap bits (i + 1)) (sum + sz d + pad) lines' total'
                ltac:(lia) Hrest ltac:(lia) Hrec) as (Hb & Hacc).
    rewrite reported_padding_app.
    assert (Hprinted :
              reported_padding
                (if negb (pad =? 0)
                 then [PaddingBefore pad (to_uint uint_bits i)] else [])
              = pad)
      by (destruct (Z.eqb_spec pad 0); cbn; lia).
    rewrite Hprinted. lia.
Qed.

Lemma total_sizes_member (sizes : list size_desc) (d : size_desc) :
  Forall (fun d => 0 <= sz d) sizes -> In d sizes ->
  0 <= sz d <= total_sizes sizes.
Proof.
  induction 1 as [|x l Hx Hl IH]; intros Hin; [destruct Hin|].
  cbn [total_sizes fold_right]. fold (total_sizes l).
  assert (0 <= total_sizes l).
  { clear -Hl. induction Hl as [|y l' Hy _ IHl]; cbn; [lia|].
    fold (total_sizes l'). lia. }
  destruct Hin as [->|Hin]; [lia|]. specialize (IH Hin). lia.
Qed.

(** X18. When three times the sum of the members' sizes fits both the size
    type and [unsigned int], [show_padding2] prints the alignment
    requirement [max_factor] and a total that is a multiple of it; the total
    is the sum of the sizes plus the paddings printed, and it is at most
    three times the sum of the sizes. *)
Theorem show_padding2_total (sizes : list size_desc) :
  sizes <> [] ->
  Forall (fun d => 0 <= sz d) sizes ->
  3 * total_sizes sizes <= Z.min (SIZE_MAX bits) (2 ^ uint_bits - 1) ->
  exists lines total,
    show_padding2 bits uint_bits sizes
    = Some (FullKnowledge :: AlignmentRequirement (max_factor bits sizes)
              :: lines ++ [TotalSize total])
    /\ total mod max_factor bits sizes = 0
    /\ total = total_sizes sizes + reported_padding lines
    /\ total_sizes sizes <= total <= 3 * total_sizes sizes.
Proof using bits_ge_16 uint_bits_ge_16.
  intros Hne Hall Hfit.
  destruct sizes as [|first rest]; [congruence|].
  set (max := max_factor bits (first :: rest)).
  (* the alignment requirement is at least 1, and above 1 only with a
     member at least as large *)
  assert (Hmax : 1 <= max /\ (max = 1 \/ max <= total_sizes (first :: rest))).
  { destruct (max_factor_fold (first :: rest) 0) as (_ & Hge & Hsome).
    cbv zeta in Hge, Hsome.
    fold (max_factor bits (first :: rest)) in Hge, Hsome. fold max in Hge, Hsome.
    destruct Hsome as [H0 | (d & Hin & Heq)].
    - specialize (Hge first (or_introl eq_refl)).
      pose proof (LargestPowerOfTwoFactor_pos bits bits_ge_16 (sz first)).
      lia.
    - pose proof (LargestPowerOfTwoFactor_pos bits bits_ge_16 (sz d)).
      split; [lia|].
      destruct (total_sizes_member (first :: rest) d Hall Hin) as [Hd0 Hdle].
      destruct (Z.eq_dec (sz d) 0) as [Hz|Hnz].
      + left. rewrite Heq, Hz. apply LargestPowerOfTwoFactor_at_zero.
      + right.
        destruct (LargestPowerOfTwoFactor_shape bits bits_ge_16 (sz d))
          as (m & _ & Hm & _ & Hle & _).
        rewrite Heq, Hm. specialize (Hle ltac:(lia)). lia. }
  destruct Hmax as [Hmax1 Hmaxle].
  inversion Hall as [|? ? Hfirst Hrest]; subst.
  assert (Htot : total_sizes (first :: rest) = sz first + total_sizes rest)
    by reflexivity.
  assert (Hrest0 : 0 <= total_sizes rest).
  { clear -Hrest. induction Hrest as [|x l Hx _ IHl]; cbn; [lia|].
    fold (total_sizes l). lia. }
  unfold show_padding2. cbv zeta. fold max.
  destruct (show_padding2_loop bits uint_bits 1 (sz first) rest)
    as [lines sum] eqn:Hrun.
  destruct (show_padding2_loop_sum rest 1 (sz first) lines sum
              Hfirst Hrest ltac:(lia) Hrun) as (Hb & Hacc).
  destruct (padding_needed_spec sum max ltac:(lia)) as (Hpad & Hdiv & _).
  assert (Hpadle : padding_needed sum max <= total_sizes (first :: rest)).
  { destruct Hmaxle; lia. }
  assert (Hend : show_padding2_end bits uint_bits max sum
                 = ((if negb (padding_needed sum max =? 0)
                     then [PaddingAtEnd (padding_needed sum max)] else []),
                    sum + padding_needed sum max)).
  { unfold show_padding2_end. cbv zeta.
    destruct (Z.eq_dec (sum mod max) 0) as [H0|Hnz].
    - rewrite H0, padding_needed_zero by (assumption || lia).
      cbn [Z.eqb negb]. now rewrite Z.add_0_r.
    - assert (Hsmall : max <= total_sizes (first :: rest)).
      { destruct Hmaxle as [H1|Hle]; [|exact Hle].
        exfalso. apply Hnz. replace max with 1 by lia. apply Z.mod_1_r. }
      destruct (padding_code sum max) as (Htest & Hval & Hwrap);
        [lia | lia | lia |].
      rewrite Htest, (Hval Hnz), Hwrap.
      destruct (Z.eqb_spec (padding_needed sum max) 0) as [Hp0|_];
        [|reflexivity].
      exfalso. apply Hnz, Z.eqb_eq. exact Htest. }
  rewrite Hend.
  exists (lines ++ (if negb (padding_needed sum max =? 0)
                    then [PaddingAtEnd (padding_needed sum max)] else [])),
         (sum + padding_needed sum max).
  assert (Hu : 2 ^ 1 <= 2 ^ uint_bits) by (apply pow2_le; lia).
  rewrite Z.pow_1_r in Hu.
  repeat split.
  - rewrite (to_uint_small max) by lia.
    rewrite (to_uint_small (sum + padding_needed sum max)) by lia.
    rewrite <- app_assoc. reflexivity.
  - apply Z.mod_divide; [lia | exact Hdiv].
  - rewrite reported_padding_app.
    assert (Hlast : reported_padding
                      (if negb (padding_needed sum max =? 0)
                       then [PaddingAtEnd (padding_needed sum max)] else [])
                    = padding_needed sum max)
      by (destruct (Z.eqb_spec (padding_needed sum max) 0);
          cbn [negb reported_padding fold_right]; lia).
    rewrite Hlast. lia.
  - lia.
  - lia.
Qed.

(** *** The two reports on an array of two members *)

(** Padding to a factor and then to a multiple of that factor is padding to
    the multiple at once. *)
Lemma padding_needed_nested (s f1 f2 : Z) :
  0 < f1 -> 0 < f2 -> (f1 | f2) ->
  s + padding_needed s f1 + padding_needed (s + padding_needed s f1) f2
  = s + padding_needed s f2.
Proof.
  intros Hf1 Hf2 Hdiv.
  destruct (padding_needed_spec s f1 Hf1) as (Hp1 & Hd1 & Hmin1).
  destruct (padding_needed_spec s f2 Hf2) as (Hp2 & Hd2 & Hmin2).
  destruct (padding_needed_spec (s + padding_needed s f1) f2 Hf2)
    as (Hp3 & Hd3 & Hmin3).
  assert (H1 : s + padding_needed s f1 <= s + padding_needed s f2).
  { apply Hmin1; [|lia]. apply Z.divide_trans with (1 := Hdiv). exact Hd2. }
  specialize (Hmin3 _ Hd2 H1).
  specialize (Hmin2 _ Hd3 ltac:(lia)).
  lia.
Qed.

Lemma show_padding2_end_padded (max sum : Z) :
  1 <= max -> 0 <= sum -> sum + max <= limit ->
  show_padding2_end bits uint_bits max sum
  = ((if negb (padding_needed sum max =? 0)
      then [PaddingAtEnd (padding_needed sum max)] else []),
     sum + padding_needed sum max).
Proof using bits_ge_16 uint_bits_ge_16.
  intros Hmax Hsum Hfit. unfold show_padding2_end. cbv zeta.
  destruct (padding_code sum max Hsum Hmax Hfit) as (Htest & Hval & Hwrap).
  destruct (Z.eq_dec (sum mod max) 0) as [H0|Hnz].
  - rewrite H0, padding_needed_zero by (assumption || lia).
    cbn [Z.eqb negb]. now rewrite Z.add_0_r.
  - rewrite Htest, (Hval Hnz), Hwrap.
    destruct (Z.eqb_spec (padding_needed sum max) 0) as [Hp0|_];
      [|reflexivity].
    exfalso. apply Hnz, Z.eqb_eq. exact Htest.
Qed.

(** X19. On an array of two nonzero members whose sizes, taken three times,
    fit both the size type and [unsigned int], [show_padding1] and
    [show_padding2] report the same total, and it is
    [TailAlignedSize] of the two sizes; the alignment requirement
    [show_padding2] prints is the alignment factor of the two. *)
Theorem show_padding_two_members (a b : size_desc) :
  1 <= sz a -> 1 <= sz b ->
  3 * (sz a + sz b) <= Z.min (SIZE_MAX bits) (2 ^ uint_bits - 1) ->
  let total := TailAlignedSize bits (sz a) (sz b) in
  total <> 0
  /\ (exists lines,
        show_padding1 bits uint_bits [a; b]
        = Some (Incrementally :: lines ++ [TotalSize total]))
  /\ (exists lines,
        show_padding2 bits uint_bits [a; b]
        = Some (FullKnowledge
                  :: AlignmentRequirement
                       (alignment_factor bits (sz a) (sz b))
                  :: lines ++ [TotalSize total])).
Proof using bits_ge_16 uint_bits_ge_16.
  intros Ha Hb Hfit total.
  set (af := alignment_factor bits (sz a) (sz b)).
  assert (Hself : forall n, 1 <= n -> 1 <= LPF n <= n).
  { intros n Hn.
    pose proof (LargestPowerOfTwoFactor_pos bits bits_ge_16 n).
    destruct (LargestPowerOfTwoFactor_shape bits bits_ge_16 n)
      as (m & _ & Heq & _ & Hle & _).
    rewrite Heq in *. specialize (Hle Hn). lia. }
  pose proof (Hself _ Ha) as HLa. pose proof (Hself _ Hb) as HLb.
  assert (Haf : 1 <= af <= sz a + sz b)
    by (unfold af, alignment_factor; lia).
  assert (Hmaxf : max_factor bits [a; b] = af).
  { unfold max_factor. cbn [fold_left].
    rewrite !max_factor_step_max. unfold af, alignment_factor. lia. }
  destruct (padding_needed_spec (sz a + sz b) af ltac:(lia))
    as (Hpad & _ & _).
  assert (Htotal : total = sz a + sz b + padding_needed (sz a + sz b) af).
  { unfold total. rewrite TailAlignedSize_cases;
      [| assumption | unfold in_size_t; lia | unfold in_size_t; lia].
    cbv zeta. fold af.
    destruct (Z.eqb_spec (sz a) 0); [lia|].
    destruct (Z.eqb_spec (sz b) 0); [lia|]. cbn [orb].
    destruct (Z.ltb_spec (SIZE_MAX bits)
                (sz a + sz b + padding_needed (sz a + sz b) af));
      [lia | reflexivity]. }
  repeat split.
  - lia.
  - unfold show_padding1. cbn [show_padding1_loop]. fold total.
    rewrite (to_uint_small total) by lia.
    eexists. rewrite app_nil_r. reflexivity.
  - unfold show_padding2. cbv zeta. rewrite Hmaxf.
    rewrite show_padding2_step by lia. cbn [show_padding2_loop].
    set (pb := padding_needed (sz a + sz b) (LPF (sz b))).
    pose proof (padding_needed_le_size (sz a + sz b) (sz b) ltac:(lia))
      as Hpb.
    fold pb in Hpb.
    rewrite show_padding2_end_padded by lia.
    assert (Hnest : sz a + sz b + pb + padding_needed (sz a + sz b + pb) af
                    = total).
    { rewrite Htotal. unfold pb. apply padding_needed_nested; try lia.
      apply (alignment_factor_multiple bits bits_ge_16). }
    rewrite Hnest, (to_uint_small af), (to_uint_small total) by lia.
    eexists. rewrite app_nil_r, <- app_assoc. reflexivity.
Qed.

End DemoFacts.

(** ** The further properties at concrete inputs *)

Lemma LargestPowerOfTwoFactor_greatest_divisor_witness :
  16 <= 64 /\ in_size_t 64 12 /\ 12 <> 0
  /\ LargestPowerOfTwoFactor 64 12 <= 12
  /\ (forall k, 0 <= k <= 64 - 2 -> (2 ^ k | 12) ->
                2 ^ k <= LargestPowerOfTwoFactor 64 12).
Proof.
  assert (Hbits : 16 <= 64) by lia.
  assert (Hn : in_size_t 64 12) by size_t_range.
  assert (Hnz : 12 <> 0) by lia.
  do 3 (split; [assumption|]).
  exact (LargestPowerOfTwoFactor_greatest_divisor 64 Hbits 12 Hn Hnz).
Defined.

Lemma LargestPowerOfTwoFactor_capped_witness :
  16 <= 64
  /\ 1 <= LargestPowerOfTwoFactor 64 (2 ^ 63) <= 2 ^ (64 - 2)
  /\ in_size_t 64 (LargestPowerOfTwoFactor 64 (2 ^ 63) * 2)
  /\ LargestPowerOfTwoFactor 64 (2 ^ 63) * 4 <= SIZE_MAX 64 + 1.
Proof.
  assert (Hbits : 16 <= 64) by lia.
  split; [assumption|].
  exact (LargestPowerOfTwoFactor_capped 64 Hbits (2 ^ 63)).
Defined.

Lemma LargestPowerOfTwoFactor_idempotent_witness :
  16 <= 64
  /\ LargestPowerOfTwoFactor 64 (LargestPowerOfTwoFactor 64 24)
     = LargestPowerOfTwoFactor 64 24.
Proof.
  assert (Hbits : 16 <= 64) by lia.
  split; [assumption|].
  exact (LargestPowerOfTwoFactor_idempotent 64 Hbits 24).
Defined.

Lemma LargestPowerOfTwoFactor_double_witness :
  16 <= 64 /\ 1 <= 12 /\ 12 * 2 <= SIZE_MAX 64
  /\ LargestPowerOfTwoFactor 64 (12 * 2)
     = (if LargestPowerOfTwoFactor 64 12 <? 2 ^ (64 - 2)
        then LargestPowerOfTwoFactor 64 12 * 2
        else LargestPowerOfTwoFactor 64 12).
Proof.
  assert (Hbits : 16 <= 64) by lia.
  assert (Hn : 1 <= 12) by lia.
  assert (Hfit : 12 * 2 <= SIZE_MAX 64) by (unfold SIZE_MAX; lia).
  do 3 (split; [assumption|]).
  exact (LargestPowerOfTwoFactor_double 64 Hbits 12 Hn Hfit).
Defined.

Lemma TailOffset_aligned_witness :
  16 <= 64 /\ in_size_t 64 6 /\ in_size_t 64 8
  /\ TailAlignedSize 64 6 8 <> 0
  /\ (let total := TailAlignedSize 64 6 8 in
      total mod LargestPowerOfTwoFactor 64 6 = 0
      /\ total mod LargestPowerOfTwoFactor 64 8 = 0
      /\ TailOffset 64 total 8 mod LargestPowerOfTwoFactor 64 8 = 0).
Proof.
  assert (Hbits : 16 <= 64) by lia.
  assert (Hh : in_size_t 64 6) by size_t_range.
  assert (Ht : in_size_t 64 8) by size_t_range.
  assert (Hnz : TailAlignedSize 64 6 8 <> 0) by by_evaluation.
  do 4 (split; [assumption|]).
  exact (TailOffset_aligned 64 Hbits 6 8 Hh Ht Hnz).
Defined.

Lemma TailAlignedSize_padding_bound_witness :
  16 <= 64 /\ in_size_t 64 6 /\ in_size_t 64 8
  /\ in_size_t 64 (TailAlignedSize 64 6 8)
  /\ (TailAlignedSize 64 6 8 <> 0 ->
      PaddingSize 64 6 8 < alignment_factor 64 6 8
      /\ TailAlignedSize 64 6 8 < 6 + 8 + alignment_factor 64 6 8).
Proof.
  assert (Hbits : 16 <= 64) by lia.
  assert (Hh : in_size_t 64 6) by size_t_range.
  assert (Ht : in_size_t 64 8) by size_t_range.
  do 3 (split; [assumption|]).
  exact (TailAlignedSize_padding_bound 64 Hbits 6 8 Hh Ht).
Defined.

Lemma TailAlignedSize_no_padding_witness :
  16 <= 64 /\ in_size_t 64 3 /\ in_size_t 64 5
  /\ (3 <> 0 -> 5 <> 0 -> 3 + 5 <= SIZE_MAX 64 ->
      (3 + 5) mod alignment_factor 64 3 5 = 0 ->
      TailAlignedSize 64 3 5 = 3 + 5)
  /\ (TailAlignedSize 64 3 5 <> 0 ->
      (PaddingSize 64 3 5 = 0 <-> (3 + 5) mod alignment_factor 64 3 5 = 0)).
Proof.
  assert (Hbits : 16 <= 64) by lia.
  assert (Hh : in_size_t 64 3) by size_t_range.
  assert (Ht : in_size_t 64 5) by size_t_range.
  do 3 (split; [assumption|]).
  exact (TailAlignedSize_no_padding 64 Hbits 3 5 Hh Ht).
Defined.

Lemma TailOffset_wraps_witness :
  16 <= 64 /\ in_size_t 64 8 /\ in_size_t 64 16
  /\ in_size_t 64 (TailOffset 64 8 16)
  /\ (8 < 16 -> TailOffset 64 8 16 = 8 - 16 + (SIZE_MAX 64 + 1))
  /\ wrap 64 (TailOffset 64 8 16 + 16) = 8.
Proof.
  assert (Hbits : 16 <= 64) by lia.
  assert (HT : in_size_t 64 8) by size_t_range.
  assert (Ht : in_size_t 64 16) by size_t_range.
  do 3 (split; [assumption|]).
  exact (TailOffset_wraps 64 Hbits 8 16 HT Ht).
Defined.

Lemma SortSizesDescending_keeps_descending_keys_witness :
  0 < 8 /\ qsort_contract qsort_insertion
  /\ 1 <= 3 /\ 8 <= 9
  /\ Z.of_nat 1 + 3 * 9 <= Z.of_nat (length sample_sorted_memory)
  /\ StronglySorted Z.ge
       (map (key 8 le_decode) (elements sample_sorted_memory 1 3 9))
  /\ map (key 8 le_decode)
       (elements (SortSizesDescending 8 le_decode qsort_insertion
                    sample_sorted_memory (Some 1%nat) 3 9) 1 3 9)
     = map (key 8 le_decode) (elements sample_sorted_memory 1 3 9).
Proof.
  assert (Hsz : 0 < 8) by lia.
  assert (Hq : qsort_contract qsort_insertion)
    by exact qsort_insertion_contract.
  assert (HCount : 1 <= 3) by lia.
  assert (HSize : 8 <= 9) by lia.
  assert (Hfit : Z.of_nat 1 + 3 * 9
                 <= Z.of_nat (length sample_sorted_memory))
    by (simpl; lia).
  assert (Hdesc : StronglySorted Z.ge
                    (map (key 8 le_decode)
                       (elements sample_sorted_memory 1 3 9))).
  { change (StronglySorted Z.ge [8; 4; 2]).
    repeat (constructor; [|repeat (constructor; [lia|]); constructor]).
    constructor. }
  do 6 (split; [assumption|]).
  exact (SortSizesDescending_keeps_descending_keys 8 le_decode
           qsort_insertion Hsz Hq sample_sorted_memory 1%nat 3 9
           HCount HSize Hfit Hdesc).
Defined.

Lemma SortSizesDescending_strictly_descending_fixed_witness :
  0 < 8 /\ qsort_contract qsort_insertion
  /\ 1 <= 3 /\ 8 <= 9
  /\ Z.of_nat 1 + 3 * 9 <= Z.of_nat (length sample_sorted_memory)
  /\ StronglySorted (fun a b => key 8 le_decode b < key 8 le_decode a)
       (elements sample_sorted_memory 1 3 9)
  /\ SortSizesDescending 8 le_decode qsort_insertion
       sample_sorted_memory (Some 1%nat) 3 9
     = sample_sorted_memory.
Proof.
  assert (Hsz : 0 < 8) by lia.
  assert (Hq : qsort_contract qsort_insertion)
    by exact qsort_insertion_contract.
  assert (HCount : 1 <= 3) by lia.
  assert (HSize : 8 <= 9) by lia.
  assert (Hfit : Z.of_nat 1 + 3 * 9
                 <= Z.of_nat (length sample_sorted_memory))
    by (simpl; lia).
  assert (Hdesc : StronglySorted
                    (fun a b => key 8 le_decode b < key 8 le_decode a)
                    (elements sample_sorted_memory 1 3 9)).
  { unfold elements, sample_sorted_memory. cbn [Z.to_nat Pos.to_nat
      Pos.iter_op Nat.add chunks skipn firstn].
    repeat (constructor;
            [|repeat (constructor; [reflexivity|]); constructor]).
    constructor. }
  do 6 (split; [assumption|]).
  exact (SortSizesDescending_strictly_descending_fixed 8 le_decode
           qsort_insertion Hsz Hq sample_sorted_memory 1%nat 3 9
           HCount HSize Hfit Hdesc).
Defined.

Lemma SortSizesDescending_single_witness :
  0 < 8 /\ qsort_contract qsort_insertion
  /\ 8 <= 9
  /\ Z.of_nat 1 + 9 <= Z.of_nat (length sample_memory)
  /\ SortSizesDescending 8 le_decode qsort_insertion
       sample_memory (Some 1%nat) 1 9
     = sample_memory.
Proof.
  assert (Hsz : 0 < 8) by lia.
  assert (Hq : qsort_contract qsort_insertion)
    by exact qsort_insertion_contract.
  assert (HSize : 8 <= 9) by lia.
  assert (Hfit : Z.of_nat 1 + 9 <= Z.of_nat (length sample_memory))
    by (simpl; lia).
  do 4 (split; [assumption|]).
  exact (SortSizesDescending_single 8 le_decode qsort_insertion Hsz Hq
           sample_memory 1%nat 9 HSize Hfit).
Defined.

Lemma SortSizesDescending_twice_keys_witness :
  0 < 8 /\ qsort_contract qsort_insertion
  /\ 1 <= 3 /\ 8 <= 9
  /\ Z.of_nat 1 + 3 * 9 <= Z.of_nat (length sample_memory)
  /\ (let once :=
        SortSizesDescending 8 le_decode qsort_insertion
          sample_memory (Some 1%nat) 3 9 in
      let twice :=
        SortSizesDescending 8 le_decode qsort_insertion
          once (Some 1%nat) 3 9 in
      map (key 8 le_decode) (elements twice 1 3 9)
      = map (key 8 le_decode) (elements once 1 3 9)).
Proof.
  assert (Hsz : 0 < 8) by lia.
  assert (Hq : qsort_contract qsort_insertion)
    by exact qsort_insertion_contract.
  assert (HCount : 1 <= 3) by lia.
  assert (HSize : 8 <= 9) by lia.
  assert (Hfit : Z.of_nat 1 + 3 * 9 <= Z.of_nat (length sample_memory))
    by (simpl; lia).
  do 5 (split; [assumption|]).
  exact (SortSizesDescending_twice_keys 8 le_decode qsort_insertion Hsz Hq
           sample_memory 1%nat 3 9 HCount HSize Hfit).
Defined.

Lemma max_factor_greatest_witness :
  16 <= 64 /\ test1 <> []
  /\ (exists d, In d test1
                /\ max_factor 64 test1 = LargestPowerOfTwoFactor 64 (sz d))
  /\ (forall d, In d test1 ->
        LargestPowerOfTwoFactor 64 (sz d) <= max_factor 64 test1
        /\ max_factor 64 test1 mod LargestPowerOfTwoFactor 64 (sz d) = 0).
Proof.
  assert (Hbits : 16 <= 64) by lia.
  assert (Hne : test1 <> []) by discriminate.
  do 2 (split; [assumption|]).
  exact (max_factor_greatest 64 Hbits test1 Hne).
Defined.

Lemma max_factor_permutation_witness :
  Permutation test1 (rev test1)
  /\ max_factor 64 test1 = max_factor 64 (rev test1).
Proof.
  assert (Hperm : Permutation test1 (rev test1)) by apply Permutation_rev.
  split; [assumption|].
  exact (max_factor_permutation 64 test1 (rev test1) Hperm).
Defined.

Lemma show_padding1_zero_member_witness :
  In {| sz := 0; name := "empty"%string |} with_empty_member
  /\ sz {| sz := 0; name := "empty"%string |} = 0
  /\ (exists lines,
        show_padding1 64 32 with_empty_member
        = Some (Incrementally :: lines ++ [TotalSize 0])).
Proof.
  assert (Hin : In {| sz := 0; name := "empty"%string |} with_empty_member)
    by (right; left; reflexivity).
  assert (Hz : sz {| sz := 0; name := "empty"%string |} = 0)
    by reflexivity.
  do 2 (split; [assumption|]).
  exact (show_padding1_zero_member 64 32 with_empty_member
           {| sz := 0; name := "empty"%string |} Hin Hz).
Defined.

Lemma show_padding1_accounts_witness :
  16 <= 64 /\ 16 <= 32
  /\ Forall (fun d => in_size_t 64 (sz d)) test1
  /\ show_padding1_loop 64 32 1 2 (tl test1)
     = ([PaddingBefore 6 1; PaddingBefore 12 2;
         PaddingBefore 24 3; PaddingBefore 58 4], 128)
  /\ 128 <> 0 /\ 128 < 2 ^ 32
  /\ show_padding1 64 32 test1
     = Some (Incrementally
               :: [PaddingBefore 6 1; PaddingBefore 12 2;
                   PaddingBefore 24 3; PaddingBefore 58 4]
               ++ [TotalSize 128])
  /\ 128 = total_sizes test1
           + reported_padding [PaddingBefore 6 1; PaddingBefore 12 2;
                               PaddingBefore 24 3; PaddingBefore 58 4]
  /\ total_sizes test1 <= 128.
Proof.
  assert (Hbits : 16 <= 64) by lia.
  assert (Hubits : 16 <= 32) by lia.
  assert (Hall : Forall (fun d => in_size_t 64 (sz d)) test1).
  { unfold test1.
    repeat (apply Forall_cons;
            [unfold in_size_t, SIZE_MAX; cbn [sz]; lia|]).
    apply Forall_nil. }
  assert (Hrun : show_padding1_loop 64 32 1 2 (tl test1)
                 = ([PaddingBefore 6 1; PaddingBefore 12 2;
                     PaddingBefore 24 3; PaddingBefore 58 4], 128))
    by (vm_compute; reflexivity).
  assert (Hnz : 128 <> 0) by lia.
  assert (Hfit : 128 < 2 ^ 32) by lia.
  do 6 (split; [assumption|]).
  exact (show_padding1_accounts 64 32 Hbits Hubits
           {| sz := 2; name := "char[2]"%string |} (tl test1)
           _ 128 Hall Hrun Hnz Hfit).
Defined.

Lemma show_padding2_total_witness :
  16 <= 64 /\ 16 <= 32
  /\ test1 <> []
  /\ Forall (fun d => 0 <= sz d) test1
  /\ 3 * total_sizes test1 <= Z.min (SIZE_MAX 64) (2 ^ 32 - 1)
  /\ (exists lines total,
        show_padding2 64 32 test1
        = Some (FullKnowledge :: AlignmentRequirement (max_factor 64 test1)
                  :: lines ++ [TotalSize total])
        /\ total mod max_factor 64 test1 = 0
        /\ total = total_sizes test1 + reported_padding lines
        /\ total_sizes test1 <= total <= 3 * total_sizes test1).
Proof.
  assert (Hbits : 16 <= 64) by lia.
  assert (Hubits : 16 <= 32) by lia.
  assert (Hne : test1 <> []) by discriminate.
  assert (Hall : Forall (fun d => 0 <= sz d) test1).
  { unfold test1. repeat (apply Forall_cons; [cbn [sz]; lia|]).
    apply Forall_nil. }
  assert (Hfit : 3 * total_sizes test1 <= Z.min (SIZE_MAX 64) (2 ^ 32 - 1))
    by (vm_compute; discriminate).
  do 5 (split; [assumption|]).
  exact (show_padding2_total 64 32 Hbits Hubits test1 Hne Hall Hfit).
Defined.

Lemma show_padding_two_members_witness :
  16 <= 64 /\ 16 <= 32
  /\ 1 <= sz {| sz := 4; name := "int"%string |}
  /\ 1 <= sz {| sz := 8; name := "double"%string |}
  /\ 3 * (sz {| sz := 4; name := "int"%string |}
          + sz {| sz := 8; name := "double"%string |})
     <= Z.min (SIZE_MAX 64) (2 ^ 32 - 1)
  /\ (let total := TailAlignedSize 64 4 8 in
      total <> 0
      /\ (exists lines,
            show_padding1 64 32
              [ {| sz := 4; name := "int"%string |};
                {| sz := 8; name := "double"%string |} ]
            = Some (Incrementally :: lines ++ [TotalSize total]))
      /\ (exists lines,
            show_padding2 64 32
              [ {| sz := 4; name := "int"%string |};
                {| sz := 8; name := "double"%string |} ]
            = Some (FullKnowledge
                      :: AlignmentRequirement (alignment_factor 64 4 8)
                      :: lines ++ [TotalSize total]))).
Proof.
  assert (Hbits : 16 <= 64) by lia.
  assert (Hubits : 16 <= 32) by lia.
  assert (Ha : 1 <= sz {| sz := 4; name := "int"%string |})
    by (cbn [sz]; lia).
  assert (Hb : 1 <= sz {| sz := 8; name := "double"%string |})
    by (cbn [sz]; lia).
  assert (Hfit : 3 * (sz {| sz := 4; name := "int"%string |}
                      + sz {| sz := 8; name := "double"%string |})
                 <= Z.min (SIZE_MAX 64) (2 ^ 32 - 1))
    by (vm_compute; discriminate).
  do 5 (split; [assumption|]).
  exact (show_padding_two_members 64 32 Hbits Hubits
           {| sz := 4; name := "int"%string |}
           {| sz := 8; name := "double"%string |} Ha Hb Hfit).
Defined.
